(** * solution.js: constant term of a polynomial by Lagrange interpolation

    A shallow embedding of [src/solution.js] and the properties of its
    radix decoder, its gcd, its Lagrange evaluator and its main script.

    Conventions of the embedding.
    - A JavaScript [BigInt] is a [Z].  BigInt division [/] truncates toward
      zero ([Z.quot]), [%] takes the sign of the dividend ([Z.rem]), and both
      throw a [RangeError] on a zero divisor.
    - A JavaScript string is a [string]: a sequence of code units in the range
      0..255 (the Latin-1 block).  Documents with other characters are outside
      the embedding.
    - A JavaScript number is NaN, an infinity or the rational value of a
      finite double.  The program compares, truncates and converts numbers
      to [BigInt]; none of these rounds.  Reading a number from a string
      and printing one do round: they are the two operations of the class
      [FloatText], about which nothing is assumed.
    - The document is the object that [JSON.parse] returned: the list of
      its own properties, in the order in which [Object.keys] enumerates
      them, with values of type [jsval].  An object has no two properties
      of the same name.
    - A thrown exception is the [Err] case of [result]; the constructors of
      [error] are the throw sites of the source and the native exceptions the
      source can raise.  The script catches every exception, reports it on
      the standard error and exits with status 2: [Err] at top level. *)

From Stdlib Require Import ZArith List String Ascii Bool Lia.
From Stdlib Require Import QArith Qcanon Field.
From Stdlib Require Import Permutation Sorted DecimalString.
From Stdlib Require Finite.
Import ListNotations.

Local Open Scope string_scope.
Local Open Scope list_scope.
Local Open Scope Z_scope.

(** ** Errors and the error monad *)

(** A JavaScript number: a double is NaN, an infinity, or a finite rational.
    Minus zero is [Fin 0]: no operation of the program tells it from zero. *)
Inductive number : Type :=
| NaN
| PosInf
| NegInf
| Fin (q : Q).

Inductive error : Type :=
| MissingKeys                         (* line 103: JSON must contain "keys" with "k" *)
| NotEnoughPoints (found : nat) (k : number)       (* line 123 *)
| InvalidCharacter (ch : ascii)                    (* line 21 *)
| DigitGeBase (digit base : Z) (ch : ascii)        (* line 23 *)
| RangeError_DivisionByZero           (* BigInt division by 0n *)
| RangeError_NotAnInteger             (* BigInt(n) for a non-integral number n *)
| SyntaxError_BigInt (s : string)     (* BigInt(s) for s not an integer literal *)
| TypeError.                          (* property read on null/undefined, failed ToPrimitive *)

Inductive result (A : Type) : Type :=
| Ok (a : A)
| Err (e : error).
Arguments Ok {A} a.
Arguments Err {A} e.

Definition bind {A B : Type} (r : result A) (f : A -> result B) : result B :=
  match r with
  | Ok a => f a
  | Err e => Err e
  end.

Notation "x <- r ;; k" := (bind r (fun x => k))
  (at level 61, r at next level, right associativity).
Notation "' pat <- r ;; k" := (bind r (fun x => match x with pat => k end))
  (at level 61, pat pattern, r at next level, right associativity).

(** The names the specification gives to the failures of the core. *)
Definition isInvalidDigit (e : error) : bool :=
  match e with
  | InvalidCharacter _ | DigitGeBase _ _ _ => true
  | _ => false
  end.

Definition isDegenerateInput (e : error) : bool :=
  match e with
  | RangeError_DivisionByZero => true
  | _ => false
  end.

Definition isMalformedDocument (e : error) : bool :=
  match e with
  | MissingKeys => true
  | _ => false
  end.

(** ** BigInt arithmetic *)

Definition bigDiv (a b : Z) : result Z :=
  if b =? 0 then Err RangeError_DivisionByZero else Ok (Z.quot a b).

Definition bigRem (a b : Z) : result Z :=
  if b =? 0 then Err RangeError_DivisionByZero else Ok (Z.rem a b).

(** Lines 30-32. *)
Definition absBigInt (v : Z) : Z := if v <? 0 then - v else v.

(** Lines 38-42, the [while (b !== 0n)] loop.  [a % b] cannot throw: the
    loop guard has just checked [b]. *)
Fixpoint gcdLoop (fuel : nat) (a b : Z) : Z :=
  match fuel with
  | O => a
  | S fuel' => if b =? 0 then a else gcdLoop fuel' b (Z.rem a b)
  end.

(** The remainder halves at least every second iteration, so twice the bit
    length of [b] bounds the number of iterations ([gcdLoop_enough]). *)
Definition gcdFuel (b : Z) : nat := (2 * Z.to_nat (Z.log2 b) + 3)%nat.

(** Lines 35-44. *)
Definition bigintGcd (a b : Z) : Z :=
  let a := absBigInt a in
  let b := absBigInt b in
  gcdLoop (gcdFuel b) a b.

(** ** The Lagrange evaluator *)

Record point : Type := mkPoint { x : Z; y : Z }.
Record fraction : Type := mkFraction { num : Z; den : Z }.

(** Lines 62-66: the loop over [j], started at [j] on the points [ps] that
    are left. *)
Fixpoint innerLoop (i : nat) (xi : Z) (j : nat) (ps : list point)
    (numer denom : Z) : Z * Z :=
  match ps with
  | [] => (numer, denom)
  | pj :: ps' =>
      if Nat.eqb j i then innerLoop i xi (S j) ps' numer denom
      else innerLoop i xi (S j) ps' (numer * - x pj) (denom * (xi - x pj))
  end.

(** Lines 55-85: one iteration of the loop over [i], from the running total
    [(totalNum, totalDen)] to the next one. *)
Definition loopBody (points : list point) (i : nat) (total : Z * Z)
    : result (Z * Z) :=
  let '(totalNum, totalDen) := total in
  match nth_error points i with
  | None => Err TypeError
  | Some p =>
      let xi := x p in
      let yi := y p in
      let '(numer, denom) := innerLoop i xi 0 points 1 1 in
      let '(numer, denom) :=
        if denom <? 0 then (- numer, - denom) else (numer, denom) in
      let termNum := yi * numer in
      let termDen := denom in
      let newNum := totalNum * termDen + termNum * totalDen in
      let newDen := totalDen * termDen in
      let g := bigintGcd (if newNum <? 0 then - newNum else newNum) newDen in
      totalNum' <- bigDiv newNum g ;;
      totalDen' <- bigDiv newDen g ;;
      Ok (totalNum', totalDen')
  end.

(** Lines 51-86: the running total after the first [n] iterations of the
    loop over [i]. *)
Fixpoint outerLoop (points : list point) (n : nat) : result (Z * Z) :=
  match n with
  | O => Ok (0, 1)
  | S i => total <- outerLoop points i ;; loopBody points i total
  end.

(** Lines 48-94. *)
Definition computeConstantC (points : list point) : result fraction :=
  total <- outerLoop points (List.length points) ;;
  let '(totalNum, totalDen) := total in
  let finalG :=
    bigintGcd (if totalNum <? 0 then - totalNum else totalNum) totalDen in
  totalNum' <- bigDiv totalNum finalG ;;
  totalDen' <- bigDiv totalDen finalG ;;
  Ok {| num := totalNum'; den := totalDen' |}.

(** ** Strings *)

(** [ch.charCodeAt(0)] *)
Definition charCode (ch : ascii) : Z := Z.of_N (N_of_ascii ch).

(** The code units that [String.prototype.trim] and the [BigInt] string
    grammar treat as white space or line terminators, below 256: TAB, LF, VT,
    FF, CR, SP and NBSP. *)
Definition isWhiteSpace (ch : ascii) : bool :=
  let c := charCode ch in
  ((9 <=? c) && (c <=? 13)) || (c =? 32) || (c =? 160).

Fixpoint trimStart (s : string) : string :=
  match s with
  | String ch s' => if isWhiteSpace ch then trimStart s' else s
  | EmptyString => EmptyString
  end.

Fixpoint trimEnd (s : string) : string :=
  match s with
  | String ch s' =>
      match trimEnd s' with
      | EmptyString => if isWhiteSpace ch then EmptyString else String ch EmptyString
      | t => String ch t
      end
  | EmptyString => EmptyString
  end.

(** [s.trim()] *)
Definition trim (s : string) : string := trimEnd (trimStart s).

(** The lower-case mapping of one code unit below 256: A-Z, and the Latin-1
    capitals U+00C0..U+00DE except the multiplication sign U+00D7. *)
Definition lowerChar (ch : ascii) : ascii :=
  let c := charCode ch in
  if ((65 <=? c) && (c <=? 90)) || ((192 <=? c) && (c <=? 222) && negb (c =? 215))
  then ascii_of_N (Z.to_N (c + 32))
  else ch.

Fixpoint mapString (f : ascii -> ascii) (s : string) : string :=
  match s with
  | String ch s' => String (f ch) (mapString f s')
  | EmptyString => EmptyString
  end.

(** [s.toLowerCase()] *)
Definition toLowerCase (s : string) : string := mapString lowerChar s.

(** [BigInt.prototype.toString()]: the decimal digits, with a leading minus
    sign for a negative value. *)
Definition BigInt_toString (v : Z) : string :=
  NilZero.string_of_int (Z.to_int v).

(** ** JavaScript values and coercions *)

#[local] Set Warnings "-register-all".
Inductive jsval : Type :=
| JUndefined
| JNull
| JBool (b : bool)
| JNum (n : number)
| JStr (s : string)
| JArr (elems : list jsval)
| JObj (props : list (string * jsval)).

(** Reading and printing floating-point literals is not part of the program:
    [Number(s)] for a string [s] and [String(n)] for a number [n] are taken
    as given. *)
Class FloatText : Type := {
  StringToNumber : string -> number;
  NumberToString : number -> string
}.

(** An own property of an object whose properties are [props], in the order
    [Object.keys] lists them; [undefined] when there is none. *)
Fixpoint getOwn (name : string) (props : list (string * jsval)) : jsval :=
  match props with
  | [] => JUndefined
  | (key, v) :: props' => if String.eqb key name then v else getOwn name props'
  end.

Definition hasOwn (name : string) (props : list (string * jsval)) : bool :=
  existsb (fun kv => String.eqb (fst kv) name) props.

(** [v.name] for the names the program reads ([keys], [k], [base], [value]),
    none of which is a property of a primitive wrapper or of an array. *)
Definition getProp (v : jsval) (name : string) : result jsval :=
  match v with
  | JUndefined | JNull => Err TypeError
  | JObj props => Ok (getOwn name props)
  | _ => Ok JUndefined
  end.

(** [!v] is [negb (ToBoolean v)]. *)
Definition ToBoolean (v : jsval) : bool :=
  match v with
  | JUndefined | JNull => false
  | JBool b => b
  | JNum NaN => false
  | JNum (Fin q) => negb (Qnum q =? 0)%Z
  | JNum _ => true
  | JStr s => negb (String.eqb s "")
  | JArr _ | JObj _ => true
  end.

(** [BigInt(n)] for a number [n]: a [RangeError] unless [n] is an integer. *)
Definition NumberToBigInt (n : number) : result Z :=
  match n with
  | Fin q =>
      if (Z.rem (Qnum q) (Zpos (Qden q)) =? 0)%Z
      then Ok (Z.quot (Qnum q) (Zpos (Qden q)))
      else Err RangeError_NotAnInteger
  | _ => Err RangeError_NotAnInteger
  end.

Section Coercions.
Context {FT : FloatText}.

(** [String(v)].  An array joins the strings of its elements with commas,
    [null] and [undefined] elements giving the empty string.  A plain object
    gives ["[object Object]"], unless an own property hides
    [Object.prototype.toString]: no value of a parsed document is callable,
    and the conversion to a primitive fails with a [TypeError]. *)
Fixpoint ToString (v : jsval) : result string :=
  match v with
  | JUndefined => Ok "undefined"
  | JNull => Ok "null"
  | JBool true => Ok "true"
  | JBool false => Ok "false"
  | JNum n => Ok (NumberToString n)
  | JStr s => Ok s
  | JArr elems =>
      let element (e : jsval) : result string :=
        match e with
        | JUndefined | JNull => Ok ""
        | _ => ToString e
        end in
      (fix join (l : list jsval) : result string :=
         match l with
         | [] => Ok ""
         | [e] => element e
         | e :: l' => s <- element e ;; r <- join l' ;; Ok (s ++ "," ++ r)%string
         end) elems
  | JObj props =>
      if hasOwn "toString" props then Err TypeError else Ok "[object Object]"
  end.

(** [Number(v)] *)
Definition ToNumber (v : jsval) : result number :=
  match v with
  | JUndefined => Ok NaN
  | JNull => Ok (Fin 0)
  | JBool b => Ok (Fin (if b then 1 else 0))
  | JNum n => Ok n
  | JStr s => Ok (StringToNumber s)
  | JArr _ | JObj _ => s <- ToString v ;; Ok (StringToNumber s)
  end.

End Coercions.

(** ** The radix decoder *)

(** Line 15: [while (s.length > 1 && s[0] === "0") s = s.slice(1)]. *)
Fixpoint stripLeadingZeros (s : string) : string :=
  match s with
  | String ch (String _ _ as s') =>
      if Ascii.eqb ch "0" then stripLeadingZeros s' else s
  | _ => s
  end.

(** Lines 18-21: the digit of one character. *)
Definition digitOf (ch : ascii) : result Z :=
  let c := charCode ch in
  if (48 <=? c) && (c <=? 57) then Ok (c - 48)
  else if (97 <=? c) && (c <=? 122) then Ok (c - 97 + 10)
  else Err (InvalidCharacter ch).

(** Lines 17-25: the loop over the characters that are left, from the value
    accumulated so far. *)
Fixpoint digitsLoop (base : Z) (s : string) (value : Z) : result Z :=
  match s with
  | EmptyString => Ok value
  | String ch s' =>
      digit <- digitOf ch ;;
      if digit >=? base then Err (DigitGeBase digit base ch)
      else digitsLoop base s' (value * base + digit)
  end.

(** Lines 10-27. *)
Definition parseBigIntFromBase {FT : FloatText} (str baseNum : jsval)
    : result Z :=
  if negb (ToBoolean str) then Ok 0
  else
    n <- ToNumber baseNum ;;
    base <- NumberToBigInt n ;;
    s <- ToString str ;;
    let s := toLowerCase (trim s) in
    let s := stripLeadingZeros s in
    digitsLoop base s 0.

(** ** The main script *)

(** The digits of an integer literal in [radix], most significant first;
    [None] on a character that is not a digit of that radix. *)
Fixpoint literalDigits (radix : Z) (s : string) (value : Z) : option Z :=
  match s with
  | EmptyString => Some value
  | String ch s' =>
      match digitOf (lowerChar ch) with
      | Ok d =>
          if d <? radix then literalDigits radix s' (value * radix + d)
          else None
      | Err _ => None
      end
  end.

Definition literal (radix : Z) (s : string) : option Z :=
  match s with
  | EmptyString => None
  | _ => literalDigits radix s 0
  end.

(** [BigInt(s)] for a string [s]: white space around an optional integer
    literal, which is decimal with an optional sign, or unsigned with one of
    the prefixes [0x], [0o], [0b]; the empty literal is [0n]; anything else is
    a [SyntaxError]. *)
Definition StringToBigInt (s : string) : result Z :=
  let t := trim s in
  let parsed :=
    match t with
    | EmptyString => Some 0%Z
    | String "0" (String ("x" | "X") r) => literal 16 r
    | String "0" (String ("o" | "O") r) => literal 8 r
    | String "0" (String ("b" | "B") r) => literal 2 r
    | String "+" r => literal 10 r
    | String "-" r => option_map Z.opp (literal 10 r)
    | _ => literal 10 t
    end in
  match parsed with
  | Some v => Ok v
  | None => Err (SyntaxError_BigInt s)
  end.

(** Lines 111-116: the object built for one key. *)
Record entry : Type := mkEntry {
  keyStr : string;
  xBig : Z;
  base : jsval;
  val : jsval
}.

Fixpoint mapM {A B : Type} (f : A -> result B) (l : list A) : result (list B) :=
  match l with
  | [] => Ok []
  | a :: l' => b <- f a ;; bs <- mapM f l' ;; Ok (b :: bs)
  end.

Definition entryOf (data : list (string * jsval)) (key : string) : result entry :=
  xb <- StringToBigInt key ;;
  b <- getProp (getOwn key data) "base" ;;
  v <- getProp (getOwn key data) "value" ;;
  Ok {| keyStr := key; xBig := xb; base := b; val := v |}.

(** Lines 109-116. *)
Definition collectEntries (data : list (string * jsval)) : result (list entry) :=
  mapM (entryOf data)
       (filter (fun key => negb (String.eqb key "keys")) (map fst data)).

(** Line 119: the comparator. *)
Definition compareEntries (a b : entry) : Z :=
  if (xBig a <? xBig b)%Z then (-1)%Z
  else if (xBig a >? xBig b)%Z then 1%Z
  else 0%Z.

(** [Array.prototype.sort] is stable: entries that compare equal keep their
    order.  Insertion from the right end is such a sort. *)
Fixpoint insertEntry (e : entry) (l : list entry) : list entry :=
  match l with
  | [] => [e]
  | h :: t =>
      if (compareEntries h e <? 0)%Z then h :: insertEntry e t else e :: h :: t
  end.

Fixpoint sortEntries (l : list entry) : list entry :=
  match l with
  | [] => []
  | e :: l' => insertEntry e (sortEntries l')
  end.

(** Line 122: [entries.length < k]. *)
Definition lengthLt (len : nat) (k : number) : bool :=
  match k with
  | NaN | NegInf => false
  | PosInf => true
  | Fin q => (Z.of_nat len * Zpos (Qden q) <? Qnum q)%Z
  end.

(** Line 127: the number of elements of [entries.slice(0, k)].  The end is
    truncated toward zero, counted from the end of the array when negative,
    and clamped to the array. *)
Definition sliceEnd (len : nat) (k : number) : nat :=
  match k with
  | NaN | NegInf => O
  | PosInf => len
  | Fin q =>
      let t := Z.quot (Qnum q) (Zpos (Qden q)) in
      if (t <? 0)%Z then Z.to_nat (Z.max (Z.of_nat len + t) 0)
      else Z.to_nat (Z.min t (Z.of_nat len))
  end.

(** Lines 102-106. *)
Definition readK {FT : FloatText} (data : list (string * jsval)) : result number :=
  let keys := getOwn "keys" data in
  if negb (ToBoolean keys) then Err MissingKeys
  else
    kv <- getProp keys "k" ;;
    match kv with
    | JUndefined => Err MissingKeys
    | _ => ToNumber kv
    end.

(** Lines 130-133. *)
Definition pointOf {FT : FloatText} (e : entry) : result point :=
  yBig <- parseBigIntFromBase (val e) (base e) ;;
  Ok {| x := xBig e; y := yBig |}.

(** Lines 102-127: the entries selected, the first [k] by ascending [x]. *)
Definition selectEntries {FT : FloatText} (data : list (string * jsval))
    : result (list entry) :=
  k <- readK data ;;
  entries <- collectEntries data ;;
  let entries := sortEntries entries in
  if lengthLt (List.length entries) k
  then Err (NotEnoughPoints (List.length entries) k)
  else Ok (firstn (sliceEnd (List.length entries) k) entries).

(** Lines 102-133: the points handed to the evaluator. *)
Definition selectPoints {FT : FloatText} (data : list (string * jsval))
    : result (list point) :=
  entries <- selectEntries data ;;
  mapM pointOf entries.

(** Lines 138-146: the line printed for a result. *)
Definition formatResult (f : fraction) : result string :=
  if (den f =? 1)%Z then Ok (BigInt_toString (num f))
  else
    r <- bigRem (num f) (den f) ;;
    if (r =? 0)%Z then q <- bigDiv (num f) (den f) ;; Ok (BigInt_toString q)
    else Ok (BigInt_toString (num f) ++ "/" ++ BigInt_toString (den f))%string.

(** Lines 98-150, after the document is read and parsed: [Ok s] when the
    script prints the line [s] on the standard output, [Err e] when it
    reports the exception [e] on the standard error and exits with status 2. *)
Definition solve {FT : FloatText} (data : list (string * jsval)) : result string :=
  points <- selectPoints data ;;
  f <- computeConstantC points ;;
  formatResult f.

(** What a run leaves on the standard output. *)
Definition printed (r : result string) : option string :=
  match r with
  | Ok s => Some s
  | Err _ => None
  end.

(** ** Notions of the specification *)

(** The value at [t] of the polynomial with the integer coefficients
    [coeffs], constant term first. *)
Fixpoint evalPoly (coeffs : list Z) (t : Z) : Z :=
  match coeffs with
  | [] => 0%Z
  | c :: coeffs' => (c + t * evalPoly coeffs' t)%Z
  end.

(** The digit characters of the decoder: 0-9, then a-z. *)
Definition digitChar (d : Z) : ascii :=
  ascii_of_N (Z.to_N (if (d <? 10)%Z then 48 + d else 87 + d)%Z).

(** The canonical encoding of [n] in base [b]: its digits, most significant
    first, without leading zeros (zero is the one digit 0).  The number of
    digits is at most the number of bits, which is the fuel. *)
Fixpoint encodeLoop (fuel : nat) (b n : Z) (acc : string) : string :=
  match fuel with
  | O => acc
  | S fuel' =>
      let acc' := String (digitChar (n mod b)) acc in
      if (n <? b)%Z then acc' else encodeLoop fuel' b (n / b) acc'
  end.

Definition encodeBase (b n : Z) : string :=
  encodeLoop (S (Z.to_nat (Z.log2 n))) b n "".

(** ** Notions used in the proofs *)

(** The two products that the loop over [j] accumulates, over the points
    other than the current one. *)
Fixpoint numerProd (others : list point) : Z :=
  match others with
  | [] => 1
  | pj :: others' => - x pj * numerProd others'
  end.

Fixpoint denomProd (xi : Z) (others : list point) : Z :=
  match others with
  | [] => 1
  | pj :: others' => (xi - x pj) * denomProd xi others'
  end.

(** Lines 60-76: the term [(termNum, termDen)] of the point [p]. *)
Definition termOf (others : list point) (p : point) : Z * Z :=
  let numer := numerProd others in
  let denom := denomProd (x p) others in
  if denom <? 0 then (y p * - numer, - denom) else (y p * numer, denom).

(** Lines 79-85: the sum of the running total and a term, reduced. *)
Definition addReduce (total term : Z * Z) : result (Z * Z) :=
  let '(totalNum, totalDen) := total in
  let '(termNum, termDen) := term in
  let newNum := totalNum * termDen + termNum * totalDen in
  let newDen := totalDen * termDen in
  let g := bigintGcd (if newNum <? 0 then - newNum else newNum) newDen in
  totalNum' <- bigDiv newNum g ;;
  totalDen' <- bigDiv newDen g ;;
  Ok (totalNum', totalDen').

(** The fraction invariant of the specification. *)
Definition reduced (totalNum totalDen : Z) : Prop :=
  0 < totalDen /\ Z.gcd (Z.abs totalNum) totalDen = 1.

Definition xs (points : list point) : list Z := map x points.

(** Rational arithmetic for the interpolation argument: [Qc], the field of
    rationals in lowest terms. *)
Definition zq (z : Z) : Qc := Q2Qc (inject_Z z).

Definition zx (p : point) : Qc := zq (x p).

Fixpoint sumQc {A : Type} (g : A -> Qc) (l : list A) : Qc :=
  match l with
  | [] => 0%Qc
  | a :: l' => (g a + sumQc g l')%Qc
  end.

Fixpoint prodQc {A : Type} (g : A -> Qc) (l : list A) : Qc :=
  match l with
  | [] => 1%Qc
  | a :: l' => (g a * prodQc g l')%Qc
  end.

(** One factor of a Lagrange basis polynomial at [t]: the node [xi] itself
    contributes no factor. *)
Definition phi (t xi xj : Qc) : Qc :=
  if Qc_eq_dec xj xi then 1%Qc else ((t - xj) / (xi - xj))%Qc.

Definition basis (t : Qc) (nodes : list Qc) (xi : Qc) : Qc :=
  prodQc (phi t xi) nodes.

(** The value at [t] of the Lagrange interpolant of [f] on [nodes]. *)
Definition lagrange (t : Qc) (f : Qc -> Qc) (nodes : list Qc) : Qc :=
  sumQc (fun xi => f xi * basis t nodes xi)%Qc nodes.

Fixpoint evalPolyQc (coeffs : list Qc) (t : Qc) : Qc :=
  match coeffs with
  | [] => 0%Qc
  | c :: coeffs' => (c + t * evalPolyQc coeffs' t)%Qc
  end.

(** The exact value of the term of the point [p] among [points]. *)
Definition termValue (points : list point) (p : point) : Qc :=
  (zq (y p) * basis 0 (map zx points) (zx p))%Qc.

(** States of the loop on a degenerate input. *)
Definition thrown (r : result (Z * Z)) : Prop := r = Err RangeError_DivisionByZero.

Definition zeroDen (r : result (Z * Z)) : Prop :=
  thrown r \/ exists totalNum, r = Ok (totalNum, 0).

(** The characters '0'..'9' and 'a'..'z', and their digit values. *)
Definition isDigitChar (ch : ascii) : bool :=
  let c := charCode ch in
  ((48 <=? c) && (c <=? 57)) || ((97 <=? c) && (c <=? 122)).

Definition digitValue (ch : ascii) : Z :=
  let c := charCode ch in
  if c <=? 57 then c - 48 else c - 87.

(** A character that is no digit of the radix. *)
Definition badChar (radix : Z) (ch : ascii) : Prop :=
  isDigitChar ch = false \/ radix <= digitValue ch.

Definition contains (ch : ascii) (s : string) : Prop :=
  In ch (list_ascii_of_string s).

(** The positional value of a digit string in [radix], most significant
    digit first, continued from [value]. *)
Fixpoint positional (radix : Z) (s : string) (value : Z) : Z :=
  match s with
  | EmptyString => value
  | String ch s' => positional radix s' (value * radix + digitValue ch)
  end.

(** The order the sort establishes. *)
Definition xLe (a b : entry) : Prop := xBig a <= xBig b.

(** Documents of the examples.  The properties of an object are listed in the
    order of [Object.keys]: array indices first, then the other keys in the
    order of the document. *)
Definition entryObj (b : Z) (v : string) : jsval :=
  JObj [("base", JNum (Fin (inject_Z b))); ("value", JStr v)].

Definition keysObj (k : Z) : jsval := JObj [("k", JNum (Fin (inject_Z k)))].

Definition docKnown : list (string * jsval) :=
  [("1", entryObj 10 "3"); ("2", entryObj 10 "6"); ("3", entryObj 10 "11");
   ("keys", keysObj 3)].

Definition docDuplicate : list (string * jsval) :=
  [("1", entryObj 10 "5"); ("keys", keysObj 2); ("01", entryObj 10 "7")].

Definition docOrderA : list (string * jsval) :=
  [("keys", keysObj 1); ("01", entryObj 10 "5"); ("001", entryObj 10 "7")].

Definition docOrderB : list (string * jsval) :=
  [("keys", keysObj 1); ("001", entryObj 10 "7"); ("01", entryObj 10 "5")].

Definition docLinearA : list (string * jsval) :=
  [("keys", keysObj 2); ("01", entryObj 10 "5"); ("002", entryObj 10 "9")].

Definition docLinearB : list (string * jsval) :=
  [("002", entryObj 10 "9"); ("keys", keysObj 2); ("01", entryObj 10 "5")].

Definition docZeroK : list (string * jsval) :=
  [("1", entryObj 10 "5"); ("2", entryObj 10 "9"); ("keys", keysObj 0)].

Definition docNoValue : list (string * jsval) :=
  [("1", JObj [("base", JNum (Fin (inject_Z 10)))]); ("keys", keysObj 1)].

Definition docNoBase : list (string * jsval) :=
  [("1", JObj [("value", JStr "12")]); ("keys", keysObj 1)].

Definition docNoKeys : list (string * jsval) :=
  [("1", entryObj 10 "5"); ("2", entryObj 10 "9")].

(** Two runs of a traversal that agree up to the order of their results. *)
Definition sameOutcome {B : Type} (r1 r2 : result (list B)) : Prop :=
  match r1, r2 with
  | Ok b1, Ok b2 => Permutation b1 b2
  | Err _, Err _ => True
  | _, _ => False
  end.

(** * Properties *)

(** ** The gcd *)

Lemma absBigInt_abs (v : Z) : absBigInt v = Z.abs v.
Proof. unfold absBigInt. destruct (Z.ltb_spec v 0); lia. Qed.

Lemma rem_halves (b r : Z) : 0 < r -> r < b -> 0 <= Z.rem b r /\ 2 * Z.rem b r < b.
Proof.
  intros Hr Hb.
  rewrite Z.rem_mod_nonneg by lia.
  pose proof (Z.mod_pos_bound b r Hr) as Hm.
  pose proof (Z.div_mod b r ltac:(lia)) as Hd.
  assert (1 <= b / r) by (apply Z.div_le_lower_bound; lia).
  nia.
Qed.

(** Two iterations at least halve the second argument, so [2 * n + 1]
    iterations are enough below [2 ^ n]: the loop has then stopped on
    [b = 0] with the gcd. *)
Lemma gcdLoop_enough (n : nat) :
  forall a b, 0 <= a -> 0 <= b < 2 ^ Z.of_nat n ->
  gcdLoop (2 * n + 1) a b = Z.gcd a b.
Proof.
  induction n as [|n IH]; intros a b Ha Hb.
  - assert (b = 0) by (change (2 ^ Z.of_nat 0) with 1 in Hb; lia). subst b.
    cbn. rewrite Z.gcd_0_r. lia.
  - replace (2 * S n + 1)%nat with (S (S (2 * n + 1))) by lia.
    cbn [gcdLoop].
    destruct (Z.eqb_spec b 0) as [->|Hb0].
    { rewrite Z.gcd_0_r. lia. }
    assert (Hr : Z.rem a b = a mod b) by (apply Z.rem_mod_nonneg; lia).
    pose proof (Z.mod_pos_bound a b ltac:(lia)) as Hm.
    assert (Hg : Z.gcd (a mod b) b = Z.gcd a b)
      by (rewrite Z.gcd_mod by lia; apply Z.gcd_comm).
    rewrite Hr.
    destruct (Z.eqb_spec (a mod b) 0) as [H0|H0].
    { rewrite <- Hg, H0, Z.gcd_0_l. lia. }
    destruct (rem_halves b (a mod b)) as [Hlo Hhi]; try lia.
    rewrite IH; try lia.
    + rewrite <- Hg.
      rewrite Z.rem_mod_nonneg by lia.
      rewrite (Z.gcd_comm (a mod b) (b mod (a mod b))).
      rewrite Z.gcd_mod by lia. reflexivity.
    + split; [lia|].
      rewrite Nat2Z.inj_succ, Z.pow_succ_r in Hb by lia. lia.
Qed.

Lemma bigintGcd_gcd (a b : Z) : bigintGcd a b = Z.gcd a b.
Proof.
  unfold bigintGcd, gcdFuel. rewrite !absBigInt_abs.
  replace (2 * Z.to_nat (Z.log2 (Z.abs b)) + 3)%nat
    with (2 * S (Z.to_nat (Z.log2 (Z.abs b))) + 1)%nat by lia.
  rewrite gcdLoop_enough.
  - rewrite Z.gcd_abs_l, Z.gcd_abs_r. reflexivity.
  - lia.
  - split; [lia|].
    rewrite Nat2Z.inj_succ, Z2Nat.id by apply Z.log2_nonneg.
    destruct (Z.eq_dec (Z.abs b) 0) as [->|Hnz].
    + cbn. lia.
    + apply Z.log2_spec. lia.
Qed.

(** ** One iteration of the evaluator *)

Lemma innerLoop_from (i : nat) (xi : Z) :
  forall ps j numer denom, (i < j)%nat ->
  innerLoop i xi j ps numer denom
  = (numer * numerProd ps, denom * denomProd xi ps).
Proof.
  induction ps as [|pj ps IH]; intros j numer denom Hj; cbn [innerLoop numerProd denomProd].
  - f_equal; ring.
  - destruct (Nat.eqb_spec j i); [lia|].
    rewrite IH by lia. f_equal; ring.
Qed.

Lemma innerLoop_split (xi : Z) (p : point) (post : list point) :
  forall pre j numer denom,
  innerLoop (j + List.length pre) xi j (pre ++ p :: post) numer denom
  = (numer * numerProd (pre ++ post), denom * denomProd xi (pre ++ post)).
Proof.
  induction pre as [|pj pre IH]; intros j numer denom; cbn [innerLoop app List.length].
  - rewrite Nat.add_0_r, Nat.eqb_refl. apply innerLoop_from. lia.
  - destruct (Nat.eqb_spec j (j + S (List.length pre))); [lia|].
    replace (j + S (List.length pre))%nat with (S j + List.length pre)%nat by lia.
    rewrite IH. cbn [numerProd denomProd]. f_equal; ring.
Qed.

Lemma loopBody_split (pre post : list point) (p : point) (total : Z * Z) :
  loopBody (pre ++ p :: post) (List.length pre) total
  = addReduce total (termOf (pre ++ post) p).
Proof.
  unfold loopBody, addReduce, termOf. destruct total as [totalNum totalDen].
  rewrite nth_error_app2, Nat.sub_diag by lia. cbn [nth_error].
  rewrite (innerLoop_split (x p) p post pre 0).
  rewrite !Z.mul_1_l.
  destruct (denomProd (x p) (pre ++ post) <? 0); reflexivity.
Qed.

Lemma denomProd_nonzero (xi : Z) (others : list point) :
  ~ In xi (xs others) -> denomProd xi others <> 0.
Proof.
  induction others as [|pj others IH]; cbn; intros Hn; [lia|].
  assert (xi - x pj <> 0) by (intros E; apply Hn; left; lia).
  assert (denomProd xi others <> 0) by (apply IH; tauto).
  nia.
Qed.

Lemma denomProd_zero (xi : Z) (others : list point) :
  In xi (xs others) -> denomProd xi others = 0.
Proof.
  induction others as [|pj others IH]; cbn; intros Hi; [tauto|].
  destruct Hi as [E|Hi].
  - replace (xi - x pj) with 0 by lia. ring.
  - rewrite IH by assumption. ring.
Qed.

Lemma termOf_den_pos (others : list point) (p : point) :
  ~ In (x p) (xs others) -> 0 < snd (termOf others p).
Proof.
  intros Hn. apply denomProd_nonzero in Hn. unfold termOf.
  destruct (Z.ltb_spec (denomProd (x p) others) 0); cbn; lia.
Qed.

Lemma termOf_den_zero (others : list point) (p : point) :
  In (x p) (xs others) -> snd (termOf others p) = 0.
Proof.
  intros Hi. apply denomProd_zero in Hi. unfold termOf. rewrite Hi. reflexivity.
Qed.

Lemma quot_exact (a g : Z) : g <> 0 -> (g | a) -> Z.quot a g = a / g.
Proof.
  intros Hg [q ->]. rewrite Z.quot_mul, Z.div_mul by assumption. reflexivity.
Qed.

Lemma ite_abs (v : Z) : (if v <? 0 then - v else v) = Z.abs v.
Proof. exact (absBigInt_abs v). Qed.

(** With a positive running denominator and a positive term denominator the
    addition succeeds, the new total is reduced and it is the sum. *)
Lemma addReduce_pos (totalNum totalDen termNum termDen : Z) :
  0 < totalDen -> 0 < termDen ->
  exists n' d',
    addReduce (totalNum, totalDen) (termNum, termDen) = Ok (n', d')
    /\ reduced n' d'
    /\ n' * (totalDen * termDen) = (totalNum * termDen + termNum * totalDen) * d'.
Proof.
  intros Ht Hd. unfold addReduce, reduced.
  rewrite ite_abs, bigintGcd_gcd, Z.gcd_abs_l.
  set (newNum := totalNum * termDen + termNum * totalDen).
  set (newDen := totalDen * termDen).
  assert (HnewDen : 0 < newDen) by (unfold newDen; nia).
  set (g := Z.gcd newNum newDen).
  assert (Hg : 0 < g).
  { pose proof (Z.gcd_nonneg newNum newDen).
    assert (g <> 0) by (unfold g; intros E; apply Z.gcd_eq_0_r in E; lia).
    unfold g in *; lia. }
  assert (Hgn : (g | newNum)) by apply Z.gcd_divide_l.
  assert (Hgd : (g | newDen)) by apply Z.gcd_divide_r.
  unfold bigDiv. destruct (Z.eqb_spec g 0); [lia|]. cbn [bind].
  exists (Z.quot newNum g), (Z.quot newDen g). split; [reflexivity|].
  rewrite !quot_exact by (assumption || lia).
  rewrite Z.gcd_abs_l.
  repeat split.
  - destruct Hgd as [qd Hqd]. rewrite Hqd, Z.div_mul by lia. nia.
  - apply Z.gcd_div_gcd; [lia | reflexivity].
  - destruct Hgn as [qn Hqn], Hgd as [qd Hqd].
    rewrite Hqn, Hqd, !Z.div_mul by lia. ring.
Qed.

(** A zero denominator, of the term or of the running total, makes the
    addition throw or leaves a zero running denominator. *)
Lemma addReduce_zero (totalNum totalDen termNum termDen : Z) :
  totalDen = 0 \/ termDen = 0 ->
  addReduce (totalNum, totalDen) (termNum, termDen) = Err RangeError_DivisionByZero
  \/ exists n', addReduce (totalNum, totalDen) (termNum, termDen) = Ok (n', 0).
Proof.
  intros Hz. unfold addReduce.
  assert (E : totalDen * termDen = 0) by (destruct Hz as [-> | ->]; ring).
  rewrite E. unfold bigDiv.
  destruct (_ =? 0); cbn [bind]; [left; reflexivity|].
  right. eexists. reflexivity.
Qed.

Lemma addReduce_zero_zero (totalNum termNum : Z) :
  addReduce (totalNum, 0) (termNum, 0) = Err RangeError_DivisionByZero.
Proof.
  unfold addReduce. rewrite !Z.mul_0_r. cbn. reflexivity.
Qed.

(** ** Lagrange interpolation over the rationals *)

Section Lagrange.
Local Open Scope Qc_scope.

Lemma sumQc_ext_in {A} (g h : A -> Qc) (l : list A) :
  (forall a, In a l -> g a = h a) -> sumQc g l = sumQc h l.
Proof.
  induction l as [|a l IH]; cbn; intros H; [reflexivity|].
  rewrite H by (left; reflexivity). rewrite IH; [reflexivity|].
  intros b Hb. apply H. right. exact Hb.
Qed.

Lemma sumQc_plus {A} (g h : A -> Qc) (l : list A) :
  sumQc (fun a => g a + h a) l = sumQc g l + sumQc h l.
Proof. induction l as [|a l IH]; cbn; [ring|]. rewrite IH. ring. Qed.

Lemma sumQc_scale {A} (c : Qc) (g : A -> Qc) (l : list A) :
  sumQc (fun a => c * g a) l = c * sumQc g l.
Proof. induction l as [|a l IH]; cbn; [ring|]. rewrite IH. ring. Qed.

Lemma sumQc_app {A} (g : A -> Qc) (l1 l2 : list A) :
  sumQc g (l1 ++ l2) = sumQc g l1 + sumQc g l2.
Proof. induction l1 as [|a l IH]; cbn; [ring|]. rewrite IH. ring. Qed.

Lemma sumQc_map {A B} (f : A -> B) (g : B -> Qc) (l : list A) :
  sumQc g (map f l) = sumQc (fun a => g (f a)) l.
Proof. induction l as [|a l IH]; cbn; [reflexivity|]. rewrite IH. reflexivity. Qed.

Lemma prodQc_app {A} (g : A -> Qc) (l1 l2 : list A) :
  prodQc g (l1 ++ l2) = prodQc g l1 * prodQc g l2.
Proof. induction l1 as [|a l IH]; cbn; [ring|]. rewrite IH. ring. Qed.

Lemma prodQc_map {A B} (f : A -> B) (g : B -> Qc) (l : list A) :
  prodQc g (map f l) = prodQc (fun a => g (f a)) l.
Proof. induction l as [|a l IH]; cbn; [reflexivity|]. rewrite IH. reflexivity. Qed.

Lemma phi_same (t xi : Qc) : phi t xi xi = 1.
Proof. unfold phi. destruct (Qc_eq_dec xi xi); congruence. Qed.

Lemma phi_other (t xi xj : Qc) : xj <> xi -> phi t xi xj = (t - xj) / (xi - xj).
Proof. unfold phi. destruct (Qc_eq_dec xj xi); congruence. Qed.

Lemma sub_nonzero (a b : Qc) : a <> b -> a - b <> 0.
Proof. intros H E. apply H. replace a with ((a - b) + b) by ring. rewrite E. ring. Qed.

(** Changing the evaluation point from [x0] to [t], away from [xi]. *)
Lemma basis_change_out (t x0 xi : Qc) (l : list Qc) :
  ~ In x0 l -> ~ In xi l ->
  prodQc (phi t xi) l = prodQc (phi t x0) l * prodQc (phi x0 xi) l.
Proof.
  induction l as [|xj l IH]; cbn [prodQc]; intros H0 Hi; [ring|].
  rewrite IH by (cbn in *; tauto).
  assert (xj <> x0) by (intros E; apply H0; left; exact E).
  assert (xj <> xi) by (intros E; apply Hi; left; exact E).
  rewrite !phi_other by assumption.
  field. split; apply sub_nonzero; congruence.
Qed.

Lemma basis_change_in (t x0 xi : Qc) (l : list Qc) :
  NoDup l -> ~ In x0 l -> In xi l ->
  (t - xi) / (x0 - xi) * prodQc (phi t xi) l
  = prodQc (phi t x0) l * prodQc (phi x0 xi) l.
Proof.
  induction l as [|xj l IH]; cbn [prodQc]; intros Hnd H0 Hi; [destruct Hi|].
  inversion Hnd as [|? ? Hnotin Hnd']; subst.
  assert (Hj0 : xj <> x0) by (intros E; apply H0; left; exact E).
  destruct (Qc_eq_dec xj xi) as [->|Hji].
  - rewrite !phi_same, (phi_other t x0 xi) by assumption.
    rewrite (basis_change_out t x0 xi l) by (cbn in *; tauto).
    ring.
  - destruct Hi as [E|Hi]; [contradiction|].
    transitivity (phi t xi xj * ((t - xi) / (x0 - xi) * prodQc (phi t xi) l)); [ring|].
    rewrite IH by (cbn in *; tauto).
    rewrite !phi_other by assumption.
    field. split; apply sub_nonzero; congruence.
Qed.

Lemma basis_cons_head (t x0 : Qc) (l : list Qc) :
  basis t (x0 :: l) x0 = prodQc (phi t x0) l.
Proof. unfold basis. cbn. rewrite phi_same. ring. Qed.

Lemma basis_cons_tail (t x0 xi : Qc) (l : list Qc) :
  xi <> x0 ->
  basis t (x0 :: l) xi = (t - x0) / (xi - x0) * basis t l xi.
Proof. intros H. unfold basis. cbn. rewrite phi_other by congruence. reflexivity. Qed.

(** The basis polynomials sum to one. *)
Lemma basis_sum_one (nodes : list Qc) :
  NoDup nodes -> nodes <> [] -> forall t, sumQc (basis t nodes) nodes = 1.
Proof.
  induction nodes as [|x0 nodes IH]; intros Hnd Hne t; [congruence|].
  inversion Hnd as [|? ? Hnotin Hnd']; subst.
  cbn [sumQc]. rewrite basis_cons_head.
  destruct nodes as [|x1 nodes].
  { cbn. ring. }
  set (l := x1 :: nodes) in *.
  rewrite (sumQc_ext_in _ (fun xi => basis t l xi + (- prodQc (phi t x0) l) * basis x0 l xi)).
  - rewrite sumQc_plus, sumQc_scale, !IH by (assumption || discriminate). ring.
  - intros xi Hi.
    assert (Hne0 : xi <> x0) by (intros ->; contradiction).
    rewrite basis_cons_tail by assumption.
    pose proof (basis_change_in t x0 xi l Hnd' Hnotin Hi) as K.
    unfold basis.
    transitivity (prodQc (phi t xi) l - (t - xi) / (x0 - xi) * prodQc (phi t xi) l).
    + field. split; apply sub_nonzero; congruence.
    + rewrite K. ring.
Qed.

Lemma synthetic_division (x0 : Qc) (P : list Qc) :
  P <> [] ->
  exists Q, List.length Q = pred (List.length P)
    /\ forall u, evalPolyQc P u = evalPolyQc P x0 + (u - x0) * evalPolyQc Q u.
Proof.
  induction P as [|c P IH]; intros Hne; [congruence|].
  destruct P as [|c' P].
  - exists []. split; [reflexivity|]. intros u. cbn. ring.
  - destruct IH as [Q [HlQ HQ]]; [discriminate|].
    exists (evalPolyQc (c' :: P) x0 :: Q). split.
    + cbn [List.length pred] in *. lia.
    + intros u. cbn [evalPolyQc] in *. rewrite (HQ u). ring.
Qed.

(** Lagrange interpolation is exact on polynomials of degree below the
    number of nodes. *)
Theorem lagrange_exact (nodes : list Qc) :
  NoDup nodes ->
  forall P, (List.length P <= List.length nodes)%nat ->
  forall t, lagrange t (evalPolyQc P) nodes = evalPolyQc P t.
Proof.
  induction nodes as [|x0 nodes IH]; intros Hnd P Hlen t.
  - destruct P; [reflexivity | cbn in Hlen; lia].
  - inversion Hnd as [|? ? Hnotin Hnd']; subst.
    destruct (list_eq_dec Qc_eq_dec P []) as [->|HP].
    { unfold lagrange. rewrite (sumQc_ext_in _ (fun _ => 0 * 0)).
      - rewrite sumQc_scale. cbn. ring.
      - intros a _. cbn. ring. }
    destruct (synthetic_division x0 P HP) as [Q [HlQ HQ]].
    assert (HQlen : (List.length Q <= List.length nodes)%nat)
      by (destruct P; cbn in *; [congruence | lia]).
    specialize (IH Hnd' Q HQlen t).
    unfold lagrange in *.
    rewrite (sumQc_ext_in _
      (fun xi => evalPolyQc P x0 * basis t (x0 :: nodes) xi
                 + (xi - x0) * evalPolyQc Q xi * basis t (x0 :: nodes) xi)).
    2:{ intros xi _. rewrite (HQ xi). ring. }
    rewrite sumQc_plus, sumQc_scale, basis_sum_one by (assumption || discriminate).
    cbn [sumQc].
    rewrite (sumQc_ext_in _ (fun xi => (t - x0) * (evalPolyQc Q xi * basis t nodes xi))).
    2:{ intros xi Hi.
        assert (Hne0 : xi <> x0) by (intros ->; contradiction).
        rewrite basis_cons_tail by assumption.
        field. apply sub_nonzero; congruence. }
    rewrite sumQc_scale, IH, (HQ t). ring.
Qed.
End Lagrange.

(** ** From the integers of the program to the rationals *)

Section Bridge.
Local Open Scope Qc_scope.

Lemma zq_add (a b : Z) : zq (a + b) = zq a + zq b.
Proof.
  unfold zq. apply Qc_is_canon. unfold Qcplus, Q2Qc; cbn [this].
  rewrite !Qred_correct, inject_Z_plus. reflexivity.
Qed.

Lemma zq_mul (a b : Z) : zq (a * b) = zq a * zq b.
Proof.
  unfold zq. apply Qc_is_canon. unfold Qcmult, Q2Qc; cbn [this].
  rewrite !Qred_correct, inject_Z_mult. reflexivity.
Qed.

Lemma zq_opp (a : Z) : zq (- a) = - zq a.
Proof.
  unfold zq. apply Qc_is_canon. unfold Qcopp, Q2Qc; cbn [this].
  rewrite !Qred_correct, inject_Z_opp. reflexivity.
Qed.

Lemma zq_sub (a b : Z) : zq (a - b) = zq a - zq b.
Proof. unfold Z.sub, Qcminus. rewrite zq_add, zq_opp. reflexivity. Qed.

Lemma zq_inj (a b : Z) : zq a = zq b -> a = b.
Proof.
  unfold zq. intros H. apply (f_equal this) in H. unfold Q2Qc in H; cbn [this] in H.
  assert (H0 : Qeq (Qred (inject_Z a)) (Qred (inject_Z b))) by (rewrite H; reflexivity).
  rewrite !Qred_correct in H0. unfold Qeq in H0. cbn in H0. lia.
Qed.

Lemma zq_0 : zq 0 = 0.
Proof. apply Qc_is_canon. reflexivity. Qed.

Lemma zq_1 : zq 1 = 1.
Proof. apply Qc_is_canon. reflexivity. Qed.

Lemma zq_nonzero (a : Z) : a <> 0%Z -> zq a <> 0.
Proof. intros Ha E. apply Ha. apply zq_inj. rewrite E, zq_0. reflexivity. Qed.

Lemma zq_evalPoly (coeffs : list Z) (t : Z) :
  zq (evalPoly coeffs t) = evalPolyQc (map zq coeffs) (zq t).
Proof.
  induction coeffs as [|c coeffs IH]; cbn [evalPoly evalPolyQc map].
  - apply zq_0.
  - rewrite zq_add, zq_mul, IH. reflexivity.
Qed.

Lemma prodQc_ext_in {A} (g h : A -> Qc) (l : list A) :
  (forall a, In a l -> g a = h a) -> prodQc g l = prodQc h l.
Proof.
  induction l as [|a l IH]; cbn; intros H; [reflexivity|].
  rewrite H by (left; reflexivity). rewrite IH; [reflexivity|].
  intros b Hb. apply H. right. exact Hb.
Qed.

Lemma prodQc_nonzero {A} (h : A -> Qc) (l : list A) :
  (forall a, In a l -> h a <> 0) -> prodQc h l <> 0.
Proof.
  induction l as [|a l IH]; cbn [prodQc]; intros H.
  - discriminate.
  - intros E. apply Qcmult_integral in E. destruct E as [E|E].
    + exact (H a (or_introl eq_refl) E).
    + apply IH; [|exact E]. intros b Hb. apply H. right. exact Hb.
Qed.

Lemma prodQc_div {A} (g h : A -> Qc) (l : list A) :
  (forall a, In a l -> h a <> 0) ->
  prodQc g l / prodQc h l = prodQc (fun a => g a / h a) l.
Proof.
  induction l as [|a l IH]; cbn [prodQc]; intros H.
  - field. discriminate.
  - rewrite <- IH by (intros b Hb; apply H; right; exact Hb).
    field. split.
    + apply prodQc_nonzero. intros b Hb. apply H. right. exact Hb.
    + apply H. left. reflexivity.
Qed.

Lemma zq_numerProd (others : list point) :
  zq (numerProd others) = prodQc (fun pj => 0 - zx pj) others.
Proof.
  induction others as [|pj others IH]; cbn [numerProd prodQc].
  - apply zq_1.
  - rewrite zq_mul, zq_opp, IH. unfold zx. ring.
Qed.

Lemma zq_denomProd (xi : Z) (others : list point) :
  zq (denomProd xi others) = prodQc (fun pj => zq xi - zx pj) others.
Proof.
  induction others as [|pj others IH]; cbn [denomProd prodQc].
  - apply zq_1.
  - rewrite zq_mul, zq_sub, IH. reflexivity.
Qed.

Lemma zx_differs (p pj : point) (others : list point) :
  ~ In (x p) (xs others) -> In pj others -> zx pj <> zx p.
Proof.
  intros Hn Hi E. apply Hn. apply zq_inj in E. rewrite <- E.
  unfold xs. apply in_map. exact Hi.
Qed.

Lemma basis_split (pre post : list point) (p : point) :
  ~ In (x p) (xs (pre ++ post)) ->
  basis 0 (map zx (pre ++ p :: post)) (zx p)
  = prodQc (fun pj => (0 - zx pj) / (zx p - zx pj)) (pre ++ post).
Proof.
  intros Hn. unfold basis.
  rewrite prodQc_map, !prodQc_app. cbn [prodQc]. rewrite phi_same.
  rewrite (prodQc_ext_in (fun a => phi 0 (zx p) (zx a))
             (fun pj => (0 - zx pj) / (zx p - zx pj)) pre).
  - rewrite (prodQc_ext_in (fun a => phi 0 (zx p) (zx a))
               (fun pj => (0 - zx pj) / (zx p - zx pj)) post).
    + ring.
    + intros pj Hj. apply phi_other.
      apply (zx_differs p pj (pre ++ post) Hn). apply in_or_app. tauto.
  - intros pj Hj. apply phi_other.
    apply (zx_differs p pj (pre ++ post) Hn). apply in_or_app. tauto.
Qed.

(** The term the loop computes for a point is its Lagrange term at zero. *)
Lemma termOf_value (pre post : list point) (p : point) :
  ~ In (x p) (xs (pre ++ post)) ->
  zq (fst (termOf (pre ++ post) p)) / zq (snd (termOf (pre ++ post) p))
  = termValue (pre ++ p :: post) p.
Proof.
  intros Hn. unfold termValue. rewrite basis_split by assumption.
  rewrite <- (prodQc_div (fun pj => 0 - zx pj) (fun pj => zx p - zx pj)).
  2:{ intros pj Hj. apply sub_nonzero. intros E.
      exact (zx_differs p pj _ Hn Hj (eq_sym E)). }
  rewrite <- zq_numerProd. change (zx p) with (zq (x p)). rewrite <- zq_denomProd.
  pose proof (denomProd_nonzero (x p) (pre ++ post) Hn) as HD.
  apply zq_nonzero in HD.
  unfold termOf. destruct (denomProd (x p) (pre ++ post) <? 0)%Z; cbn [fst snd].
  - rewrite zq_mul, !zq_opp. field. split; [exact HD|].
    intros E. apply HD. rewrite <- (Qcopp_involutive (zq _)), E. ring.
  - rewrite zq_mul. field. exact HD.
Qed.

Lemma frac_sum (n' d' totalNum totalDen termNum termDen : Z) :
  (0 < d')%Z -> (0 < totalDen)%Z -> (0 < termDen)%Z ->
  (n' * (totalDen * termDen) = (totalNum * termDen + termNum * totalDen) * d')%Z ->
  zq n' / zq d' = zq totalNum / zq totalDen + zq termNum / zq termDen.
Proof.
  intros Hd' Ht Hd H. apply (f_equal zq) in H.
  rewrite !zq_mul, zq_add, !zq_mul in H.
  assert (zq d' <> 0) by (apply zq_nonzero; lia).
  assert (zq totalDen <> 0) by (apply zq_nonzero; lia).
  assert (zq termDen <> 0) by (apply zq_nonzero; lia).
  transitivity (zq n' * (zq totalDen * zq termDen) / (zq d' * zq totalDen * zq termDen)).
  - field. auto.
  - rewrite H. field. auto.
Qed.

End Bridge.

(** ** The loop over the points *)

Lemma points_split (points : list point) (n : nat) :
  (n < List.length points)%nat ->
  exists pre p post, points = pre ++ p :: post /\ List.length pre = n.
Proof.
  intros Hn. destruct (nth_error points n) as [p|] eqn:E.
  - apply nth_error_split in E. destruct E as [pre [post [E1 E2]]].
    exists pre, p, post. split; assumption.
  - apply nth_error_None in E. lia.
Qed.

Lemma xs_app (l1 l2 : list point) : xs (l1 ++ l2) = xs l1 ++ xs l2.
Proof. apply map_app. Qed.

Lemma NoDup_others (pre post : list point) (p : point) :
  NoDup (xs (pre ++ p :: post)) -> ~ In (x p) (xs (pre ++ post)).
Proof.
  rewrite !xs_app. cbn [xs map]. intros H. apply NoDup_remove_2 in H. exact H.
Qed.

Lemma firstn_pre (pre post : list point) (p : point) :
  firstn (List.length pre) (pre ++ p :: post) = pre.
Proof.
  rewrite firstn_app, Nat.sub_diag, firstn_all. cbn. apply app_nil_r.
Qed.

Lemma firstn_pre_S (pre post : list point) (p : point) :
  firstn (S (List.length pre)) (pre ++ p :: post) = pre ++ [p].
Proof.
  rewrite firstn_app, firstn_all2 by lia.
  replace (S (List.length pre) - List.length pre)%nat with 1%nat by lia.
  reflexivity.
Qed.

(** On distinct abscissas every iteration succeeds, leaves a reduced total
    with a positive denominator, and the total is the sum of the Lagrange
    terms of the points seen so far. *)
Lemma outerLoop_invariant (points : list point) :
  NoDup (xs points) ->
  forall n, (n <= List.length points)%nat ->
  exists totalNum totalDen,
    outerLoop points n = Ok (totalNum, totalDen)
    /\ reduced totalNum totalDen
    /\ (zq totalNum / zq totalDen)%Qc = sumQc (termValue points) (firstn n points).
Proof.
  intros Hnd. induction n as [|n IH]; intros Hn.
  - exists 0, 1. split; [reflexivity|]. split.
    + split; [lia | reflexivity].
    + cbn [firstn sumQc]. apply Qc_is_canon. reflexivity.
  - destruct IH as [totalNum [totalDen [Hloop [[Hpos Hred] Hval]]]]; [lia|].
    destruct (points_split points n) as [pre [p [post [-> Hlen]]]]; [lia|].
    subst n.
    pose proof (NoDup_others pre post p Hnd) as Hothers.
    pose proof (termOf_den_pos _ _ Hothers) as Hden.
    pose proof (termOf_value pre post p Hothers) as Hterm.
    cbn [outerLoop]. rewrite Hloop. cbn [bind]. rewrite loopBody_split.
    destruct (termOf (pre ++ post) p) as [termNum termDen]. cbn [fst snd] in *.
    destruct (addReduce_pos totalNum totalDen termNum termDen Hpos Hden)
      as [n' [d' [Hadd [Hred' Hsum]]]].
    exists n', d'. split; [exact Hadd|]. split; [exact Hred'|].
    rewrite firstn_pre_S, sumQc_app. rewrite firstn_pre in Hval.
    cbn [sumQc]. rewrite <- Hval, <- Hterm.
    rewrite (frac_sum n' d' totalNum totalDen termNum termDen);
      [ring | apply Hred' | assumption | assumption | assumption].
Qed.

Lemma addReduce_error (total term : Z * Z) (e : error) :
  addReduce total term = Err e -> e = RangeError_DivisionByZero.
Proof.
  destruct total as [totalNum totalDen], term as [termNum termDen].
  unfold addReduce, bigDiv. destruct (_ =? 0); cbn [bind]; congruence.
Qed.

(** Below the length of the array the loop can only fail on a division. *)
Lemma outerLoop_cases (points : list point) :
  forall n, (n <= List.length points)%nat ->
  thrown (outerLoop points n) \/ exists total, outerLoop points n = Ok total.
Proof.
  induction n as [|n IH]; intros Hn.
  - right. eexists. reflexivity.
  - destruct IH as [IH|[total IH]]; [lia | |]; cbn [outerLoop]; rewrite IH; cbn [bind].
    + left. reflexivity.
    + destruct (points_split points n) as [pre [p [post [-> Hlen]]]]; [lia|].
      subst n. rewrite loopBody_split.
      destruct (addReduce total (termOf (pre ++ post) p)) as [total'|e] eqn:E.
      * right. eexists. reflexivity.
      * left. apply addReduce_error in E. subst e. reflexivity.
Qed.

(** After the first of two points with the same abscissa the running
    denominator is zero, unless the loop has thrown. *)
Lemma outerLoop_after_first (pre mid post : list point) (p q : point) :
  x p = x q ->
  forall n, (List.length pre < n <= List.length (pre ++ p :: mid ++ q :: post))%nat ->
  zeroDen (outerLoop (pre ++ p :: mid ++ q :: post) n).
Proof.
  intros Hpq. set (points := pre ++ p :: mid ++ q :: post).
  induction n as [|n IH]; intros Hn; [lia|].
  cbn [outerLoop].
  destruct (Nat.eq_dec n (List.length pre)) as [->|Hne].
  - destruct (outerLoop_cases points (List.length pre)) as [Ht|[[totalNum totalDen] Hok]]; [lia | |].
    + left. unfold thrown in *. rewrite Ht. reflexivity.
    + rewrite Hok. cbn [bind]. unfold points. rewrite loopBody_split.
      assert (Hz : snd (termOf (pre ++ mid ++ q :: post) p) = 0).
      { apply termOf_den_zero. rewrite Hpq, !xs_app. cbn [xs map].
        apply in_or_app. right. apply in_or_app. right. left. reflexivity. }
      destruct (termOf (pre ++ mid ++ q :: post) p) as [termNum termDen].
      cbn [snd] in Hz. subst termDen.
      apply addReduce_zero. right. reflexivity.
  - destruct IH as [Ht|[totalNum Hok]]; [lia | |].
    + left. unfold thrown in *. rewrite Ht. reflexivity.
    + rewrite Hok. cbn [bind].
      destruct (points_split points n) as [pre' [p' [post' [E Hlen]]]]; [lia|].
      rewrite E, <- Hlen, loopBody_split.
      destruct (termOf (pre' ++ post') p') as [termNum termDen].
      apply addReduce_zero. left. reflexivity.
Qed.

(** After the second one the loop has thrown. *)
Lemma outerLoop_after_second (pre mid post : list point) (p q : point) :
  x p = x q ->
  forall n, (List.length (pre ++ p :: mid) < n <= List.length (pre ++ p :: mid ++ q :: post))%nat ->
  thrown (outerLoop (pre ++ p :: mid ++ q :: post) n).
Proof.
  intros Hpq. set (points := pre ++ p :: mid ++ q :: post).
  induction n as [|n IH]; intros Hn; [lia|].
  cbn [outerLoop].
  destruct (Nat.eq_dec n (List.length (pre ++ p :: mid))) as [->|Hne].
  - destruct (outerLoop_after_first pre mid post p q Hpq (List.length (pre ++ p :: mid)))
      as [Ht|[totalNum Hok]].
    + rewrite !length_app in *. cbn [List.length] in *. rewrite ?length_app in *.
      cbn [List.length] in *. lia.
    + fold points in Ht. unfold thrown in *. rewrite Ht. reflexivity.
    + fold points in Hok. rewrite Hok. cbn [bind].
      replace points with ((pre ++ p :: mid) ++ q :: post)
        by (unfold points; rewrite <- app_assoc; reflexivity).
      rewrite loopBody_split.
      assert (Hz : snd (termOf ((pre ++ p :: mid) ++ post) q) = 0).
      { apply termOf_den_zero. rewrite <- Hpq, !xs_app. cbn [xs map].
        apply in_or_app. left. apply in_or_app. right. left. reflexivity. }
      destruct (termOf ((pre ++ p :: mid) ++ post) q) as [termNum termDen].
      cbn [snd] in Hz. subst termDen.
      apply addReduce_zero_zero.
  - unfold thrown in *. rewrite IH by lia. reflexivity.
Qed.

Lemma computeConstantC_duplicate (pre mid post : list point) (p q : point) :
  x p = x q ->
  computeConstantC (pre ++ p :: mid ++ q :: post) = Err RangeError_DivisionByZero.
Proof.
  intros Hpq. unfold computeConstantC.
  rewrite (outerLoop_after_second pre mid post p q Hpq).
  - reflexivity.
  - rewrite !length_app. cbn [List.length]. rewrite !length_app. cbn [List.length]. lia.
Qed.

Lemma duplicate_cases (points : list point) :
  NoDup (xs points)
  \/ exists pre p mid q post, points = pre ++ p :: mid ++ q :: post /\ x p = x q.
Proof.
  induction points as [|p points IH].
  - left. constructor.
  - destruct (in_dec Z.eq_dec (x p) (xs points)) as [Hin|Hnotin].
    + right. apply in_map_iff in Hin. destruct Hin as [q [Hq Hin]].
      apply in_split in Hin. destruct Hin as [mid [post ->]].
      exists [], p, mid, q, post. split; [reflexivity | congruence].
    + destruct IH as [IH|[pre [p' [mid [q [post [-> Hpq]]]]]]].
      * left. cbn. constructor; assumption.
      * right. exists (p :: pre), p', mid, q, post. split; [reflexivity | assumption].
Qed.

(** The result of the evaluator on distinct abscissas. *)
Lemma computeConstantC_distinct (points : list point) :
  NoDup (xs points) ->
  exists totalNum totalDen,
    computeConstantC points = Ok {| num := totalNum; den := totalDen |}
    /\ outerLoop points (List.length points) = Ok (totalNum, totalDen)
    /\ reduced totalNum totalDen
    /\ (zq totalNum / zq totalDen)%Qc = sumQc (termValue points) points.
Proof.
  intros Hnd.
  destruct (outerLoop_invariant points Hnd (List.length points) (le_n _))
    as [totalNum [totalDen [Hloop [Hred Hval]]]].
  exists totalNum, totalDen. rewrite firstn_all in Hval.
  repeat split; try assumption; try apply Hred.
  unfold computeConstantC. rewrite Hloop. cbn [bind].
  destruct Hred as [Hpos Hgcd].
  rewrite ite_abs, bigintGcd_gcd, Hgcd. unfold bigDiv. cbn [Z.eqb bind].
  rewrite !Z.quot_1_r. reflexivity.
Qed.

(** ** The evaluator: results *)

Lemma NoDup_nodes (points : list point) :
  NoDup (xs points) -> NoDup (map zx points).
Proof.
  intros H. unfold zx. rewrite <- (map_map x zq). fold (xs points).
  apply Finite.Injective_map_NoDup; [|exact H].
  intros a b. apply zq_inj.
Qed.

(** On points of a polynomial of degree below their number, the sum of the
    terms is the constant term. *)
Lemma terms_sum (points : list point) (coeffs : list Z) :
  NoDup (xs points) ->
  (List.length coeffs <= List.length points)%nat ->
  (forall p, In p points -> y p = evalPoly coeffs (x p)) ->
  sumQc (termValue points) points = zq (evalPoly coeffs 0).
Proof.
  intros Hnd Hlen Hy.
  rewrite zq_evalPoly, zq_0.
  rewrite <- (lagrange_exact (map zx points) (NoDup_nodes points Hnd) (map zq coeffs)).
  - unfold lagrange. rewrite sumQc_map. apply sumQc_ext_in.
    intros p Hp. unfold termValue. rewrite (Hy p Hp), zq_evalPoly. reflexivity.
  - rewrite !length_map. exact Hlen.
Qed.

Lemma computeConstantC_exact (points : list point) (coeffs : list Z) :
  NoDup (xs points) ->
  (List.length coeffs <= List.length points)%nat ->
  (forall p, In p points -> y p = evalPoly coeffs (x p)) ->
  computeConstantC points = Ok {| num := evalPoly coeffs 0; den := 1 |}.
Proof.
  intros Hnd Hlen Hy.
  destruct (computeConstantC_distinct points Hnd)
    as [totalNum [totalDen [Hc [_ [[Hpos Hgcd] Hval]]]]].
  rewrite (terms_sum points coeffs Hnd Hlen Hy) in Hval.
  set (c := evalPoly coeffs 0) in *.
  assert (Hn : totalNum = c * totalDen).
  { apply zq_inj. rewrite zq_mul, <- Hval.
    assert (zq totalDen <> 0%Qc) by (apply zq_nonzero; lia).
    field. assumption. }
  assert (Hd : totalDen = 1).
  { assert (Hdiv : (totalDen | 1)).
    { rewrite <- Hgcd. apply Z.gcd_greatest; [|apply Z.divide_refl].
      apply Z.divide_abs_r. exists c. exact Hn. }
    apply Z.divide_1_r in Hdiv. lia. }
  rewrite Hc. subst totalDen. rewrite Z.mul_1_r in Hn. subst totalNum. reflexivity.
Qed.

Lemma computeConstantC_ok_distinct (points : list point) (r : fraction) :
  computeConstantC points = Ok r -> NoDup (xs points).
Proof.
  intros Hr.
  destruct (duplicate_cases points) as [H|[pre [p [mid [q [post [-> Hpq]]]]]]];
    [exact H|].
  rewrite (computeConstantC_duplicate pre mid post p q Hpq) in Hr. discriminate.
Qed.

Lemma computeConstantC_ok_reduced (points : list point) (r : fraction) :
  computeConstantC points = Ok r -> reduced (num r) (den r).
Proof.
  intros Hr.
  destruct (computeConstantC_distinct points (computeConstantC_ok_distinct points r Hr))
    as [totalNum [totalDen [Hc [_ [Hred _]]]]].
  rewrite Hc in Hr. injection Hr as <-. exact Hred.
Qed.

Lemma nth_error_two (points : list point) (i j : nat) (p q : point) :
  (i < j)%nat -> nth_error points i = Some p -> nth_error points j = Some q ->
  exists pre mid post, points = pre ++ p :: mid ++ q :: post.
Proof.
  intros Hij Hi Hj.
  apply nth_error_split in Hi. destruct Hi as [pre [rest [-> Hlen]]].
  rewrite nth_error_app2 in Hj by lia.
  destruct (j - List.length pre)%nat as [|m] eqn:E; [lia|].
  cbn [nth_error] in Hj.
  apply nth_error_split in Hj. destruct Hj as [mid [post [-> _]]].
  exists pre, mid, post. reflexivity.
Qed.

Lemma known_points_result :
  computeConstantC [mkPoint 1 3; mkPoint 2 6; mkPoint 3 11]
  = Ok {| num := 2; den := 1 |}.
Proof.
  apply (computeConstantC_exact _ [2; 0; 1]).
  - repeat constructor; cbn; intuition lia.
  - cbn. lia.
  - intros p [<-|[<-|[<-|[]]]]; reflexivity.
Qed.

(** C1 (as amended): for every list of k >= 1 points with pairwise distinct
    x-coordinates that lie on one polynomial of degree less than k with
    integer coefficients, [computeConstantC] returns a fraction whose exact
    rational value num/den is the value of the polynomial at 0; for the
    points (1,3), (2,6), (3,11), which lie on x^2 + 2, it returns 2, and
    the script prints 2 for the document of these points with k = 3. *)
Theorem C1_constant_term :
  (forall (points : list point) (coeffs : list Z),
     (1 <= List.length points)%nat ->
     NoDup (xs points) ->
     (List.length coeffs <= List.length points)%nat ->
     (forall p, In p points -> y p = evalPoly coeffs (x p)) ->
     exists r,
       computeConstantC points = Ok r
       /\ 0 < den r
       /\ (inject_Z (num r) / inject_Z (den r) == inject_Z (evalPoly coeffs 0))%Q)
  /\ computeConstantC [mkPoint 1 3; mkPoint 2 6; mkPoint 3 11]
     = Ok {| num := 2; den := 1 |}
  /\ (forall FT : FloatText,
        selectPoints docKnown = Ok [mkPoint 1 3; mkPoint 2 6; mkPoint 3 11]
        /\ solve docKnown = Ok "2").
Proof.
  split; [|split].
  - intros points coeffs _ Hnd Hlen Hy.
    exists {| num := evalPoly coeffs 0; den := 1 |}.
    split; [apply computeConstantC_exact; assumption|].
    cbn [num den]. split; [lia|].
    unfold Qdiv. change (/ inject_Z 1)%Q with 1%Q. apply Qmult_1_r.
  - exact known_points_result.
  - intros FT.
    assert (Hsel : selectPoints docKnown
                   = Ok [mkPoint 1 3; mkPoint 2 6; mkPoint 3 11]) by reflexivity.
    split; [exact Hsel|].
    unfold solve. rewrite Hsel. cbn [bind]. rewrite known_points_result. reflexivity.
Qed.

Lemma C1_constant_term_witness :
  let points := [mkPoint 1 5; mkPoint 2 9] in
  let coeffs := [1; 4] in
  exists r,
    computeConstantC points = Ok r
    /\ 0 < den r
    /\ (inject_Z (num r) / inject_Z (den r) == inject_Z (evalPoly coeffs 0))%Q.
Proof.
  apply (proj1 C1_constant_term [mkPoint 1 5; mkPoint 2 9] [1; 4]).
  - cbn. lia.
  - repeat constructor; cbn; intuition lia.
  - cbn. lia.
  - intros p [<-|[<-|[]]]; reflexivity.
Defined.

(** C1 as stated fails on its example: on (1,3), (2,6), (3,11) the returned
    fraction does not have the value 1. *)
Lemma C1_counterexample :
  ~ exists r,
      computeConstantC [mkPoint 1 3; mkPoint 2 6; mkPoint 3 11] = Ok r
      /\ (inject_Z (num r) / inject_Z (den r) == 1)%Q.
Proof.
  intros [r [Hr Hv]].
  rewrite known_points_result in Hr. injection Hr as <-.
  cbn in Hv. discriminate Hv.
Qed.

(** C3: on pairwise distinct x-coordinates the running total satisfies the
    fraction invariant after every iteration of the loop (after [n]
    iterations, for every [n] up to the number of points) and at return:
    the denominator is positive and gcd(|numerator|, denominator) = 1. *)
Theorem C3_total_reduced (points : list point) :
  NoDup (xs points) ->
  (forall n, (n <= List.length points)%nat ->
     exists totalNum totalDen,
       outerLoop points n = Ok (totalNum, totalDen)
       /\ 0 < totalDen /\ Z.gcd (Z.abs totalNum) totalDen = 1)
  /\ (exists r,
        computeConstantC points = Ok r
        /\ 0 < den r /\ Z.gcd (Z.abs (num r)) (den r) = 1).
Proof.
  intros Hnd. split.
  - intros n Hn.
    destruct (outerLoop_invariant points Hnd n Hn)
      as [totalNum [totalDen [Hloop [Hred _]]]].
    exists totalNum, totalDen. split; [exact Hloop | exact Hred].
  - destruct (computeConstantC_distinct points Hnd)
      as [totalNum [totalDen [Hc [_ [Hred _]]]]].
    eexists. split; [exact Hc | exact Hred].
Qed.

Lemma C3_total_reduced_witness :
  let points := [mkPoint 1 1; mkPoint 3 2; mkPoint (-2) 7] in
  (forall n, (n <= List.length points)%nat ->
     exists totalNum totalDen,
       outerLoop points n = Ok (totalNum, totalDen)
       /\ 0 < totalDen /\ Z.gcd (Z.abs totalNum) totalDen = 1)
  /\ (exists r,
        computeConstantC points = Ok r
        /\ 0 < den r /\ Z.gcd (Z.abs (num r)) (den r) = 1).
Proof.
  apply (C3_total_reduced [mkPoint 1 1; mkPoint 3 2; mkPoint (-2) 7]).
  repeat constructor; cbn; intuition lia.
Defined.

(** ** The decoder: digits and failures *)

Lemma charCode_range (ch : ascii) : 0 <= charCode ch < 256.
Proof.
  unfold charCode. pose proof (N_ascii_bounded ch). lia.
Qed.

Lemma charCode_of (n : Z) : 0 <= n < 256 -> charCode (ascii_of_N (Z.to_N n)) = n.
Proof.
  intros Hn. unfold charCode. rewrite N_ascii_embedding by lia. lia.
Qed.

Lemma charCode_inj (a b : ascii) : charCode a = charCode b -> a = b.
Proof.
  unfold charCode. intros H.
  rewrite <- (ascii_N_embedding a), <- (ascii_N_embedding b).
  f_equal. lia.
Qed.

Lemma digitOf_spec (ch : ascii) :
  digitOf ch = if isDigitChar ch then Ok (digitValue ch) else Err (InvalidCharacter ch).
Proof.
  unfold digitOf, isDigitChar, digitValue.
  pose proof (charCode_range ch).
  destruct (Z.leb_spec 48 (charCode ch)), (Z.leb_spec (charCode ch) 57),
    (Z.leb_spec 97 (charCode ch)), (Z.leb_spec (charCode ch) 122);
    cbn [andb orb]; try reflexivity; try lia; f_equal; lia.
Qed.

Lemma digitValue_range (ch : ascii) : isDigitChar ch = true -> 0 <= digitValue ch < 36.
Proof.
  unfold isDigitChar, digitValue.
  destruct (Z.leb_spec 48 (charCode ch)), (Z.leb_spec (charCode ch) 57),
    (Z.leb_spec 97 (charCode ch)), (Z.leb_spec (charCode ch) 122);
    cbn [andb orb]; intros; try discriminate; lia.
Qed.

Lemma badChar_dec (radix : Z) (ch : ascii) : {badChar radix ch} + {~ badChar radix ch}.
Proof.
  unfold badChar.
  destruct (isDigitChar ch); [|left; left; reflexivity].
  destruct (Z_le_dec radix (digitValue ch)); [left; right; assumption|].
  right. intros [H|H]; [discriminate | contradiction].
Qed.

(** The loop fails exactly on the first character that is no digit of the
    base, with one of the two errors of lines 21 and 23. *)
Lemma digitsLoop_error (base : Z) (s : string) :
  forall value e, digitsLoop base s value = Err e ->
  isInvalidDigit e = true /\ exists ch, contains ch s /\ badChar base ch.
Proof.
  induction s as [|ch s IH]; intros value e; cbn [digitsLoop]; [discriminate|].
  rewrite digitOf_spec. unfold contains in *. cbn [list_ascii_of_string].
  destruct (isDigitChar ch) eqn:Hd; cbn [bind].
  - destruct (Z.geb_spec (digitValue ch) base) as [Hge|Hlt].
    + intros E. injection E as <-. split; [reflexivity|].
      exists ch. split; [left; reflexivity | right; lia].
    + intros E. apply IH in E. destruct E as [He [c [Hc Hb]]].
      split; [exact He|]. exists c. split; [right; exact Hc | exact Hb].
  - intros E. injection E as <-. split; [reflexivity|].
    exists ch. split; [left; reflexivity | left; exact Hd].
Qed.

Lemma digitsLoop_ok (base : Z) (s : string) :
  forall value v, digitsLoop base s value = Ok v ->
  forall ch, contains ch s -> ~ badChar base ch.
Proof.
  induction s as [|ch s IH]; intros value v; cbn [digitsLoop];
    unfold contains in *; cbn [list_ascii_of_string]; [intros _ c []|].
  rewrite digitOf_spec.
  destruct (isDigitChar ch) eqn:Hd; cbn [bind]; [|discriminate].
  destruct (Z.geb_spec (digitValue ch) base) as [Hge|Hlt]; [discriminate|].
  intros E c [<-|Hc].
  - intros [H|H]; [congruence | lia].
  - exact (IH _ _ E c Hc).
Qed.

Lemma stripLeadingZeros_digitsLoop (base : Z) (s : string) :
  0 < base -> digitsLoop base (stripLeadingZeros s) 0 = digitsLoop base s 0.
Proof.
  intros Hb. induction s as [|ch s IH]; [reflexivity|].
  cbn [stripLeadingZeros]. destruct s as [|ch' s']; [reflexivity|].
  destruct (Ascii.eqb_spec ch "0"%char) as [->|Hne]; [|reflexivity].
  rewrite IH. symmetry.
  change (digitsLoop base (String "0" (String ch' s')) 0)
    with (if 0 >=? base then Err (DigitGeBase 0 base "0")
          else digitsLoop base (String ch' s') (0 * base + 0)).
  destruct (Z.geb_spec 0 base); [lia | reflexivity].
Qed.

Lemma NumberToBigInt_integer (r : Z) : NumberToBigInt (Fin (inject_Z r)) = Ok r.
Proof.
  unfold NumberToBigInt. cbn [inject_Z Qnum Qden].
  rewrite Z.rem_1_r, Z.quot_1_r. reflexivity.
Qed.

(** The decoder on a non-empty string and an integer radix. *)
Lemma parse_string_radix {FT : FloatText} (s : string) (r : Z) :
  s <> "" -> 0 < r ->
  parseBigIntFromBase (JStr s) (JNum (Fin (inject_Z r)))
  = digitsLoop r (toLowerCase (trim s)) 0.
Proof.
  intros Hs Hr. unfold parseBigIntFromBase.
  cbn [ToBoolean ToNumber ToString bind].
  apply String.eqb_neq in Hs. rewrite Hs. cbn [negb].
  rewrite NumberToBigInt_integer. cbn [bind].
  apply stripLeadingZeros_digitsLoop. exact Hr.
Qed.

Lemma contains_trimStart (ch : ascii) (s : string) :
  contains ch s -> isWhiteSpace ch = false -> contains ch (trimStart s).
Proof.
  unfold contains. intros Hc Hw.
  induction s as [|c s IH]; cbn [trimStart]; [exact Hc|].
  destruct (isWhiteSpace c) eqn:E; [|exact Hc].
  destruct Hc as [->|Hc]; [congruence|]. apply IH. exact Hc.
Qed.

Lemma contains_trimEnd (ch : ascii) (s : string) :
  contains ch s -> isWhiteSpace ch = false -> contains ch (trimEnd s).
Proof.
  unfold contains. intros Hc Hw.
  induction s as [|c s IH]; cbn [trimEnd]; [exact Hc|].
  destruct Hc as [->|Hc].
  - destruct (trimEnd s); [rewrite Hw|]; left; reflexivity.
  - specialize (IH Hc). destruct (trimEnd s); [destruct IH|].
    right. exact IH.
Qed.

Lemma contains_map (f : ascii -> ascii) (ch : ascii) (s : string) :
  contains ch s -> contains (f ch) (mapString f s).
Proof.
  unfold contains. induction s as [|c s IH]; cbn; [tauto|].
  intros [->|Hc]; [left; reflexivity | right; apply IH; exact Hc].
Qed.

Lemma trimStart_id (s : string) :
  (forall ch, contains ch s -> isWhiteSpace ch = false) -> trimStart s = s.
Proof.
  destruct s as [|c s]; [reflexivity|]. intros H. cbn [trimStart].
  rewrite (H c); [reflexivity | left; reflexivity].
Qed.

Lemma trimEnd_id (s : string) :
  (forall ch, contains ch s -> isWhiteSpace ch = false) -> trimEnd s = s.
Proof.
  unfold contains. induction s as [|c s IH]; [reflexivity|]. intros H. cbn [trimEnd].
  rewrite IH by (intros ch Hc; apply H; right; exact Hc).
  destruct s; [|reflexivity].
  rewrite (H c); [reflexivity | left; reflexivity].
Qed.

Lemma mapString_id (f : ascii -> ascii) (s : string) :
  (forall ch, contains ch s -> f ch = ch) -> mapString f s = s.
Proof.
  unfold contains. induction s as [|c s IH]; [reflexivity|]. intros H. cbn [mapString].
  rewrite IH by (intros ch Hc; apply H; right; exact Hc).
  rewrite (H c); [reflexivity | left; reflexivity].
Qed.

(** The digit characters of the encoder are those of the decoder. *)
Lemma digitChar_code (d : Z) :
  0 <= d < 36 -> charCode (digitChar d) = if d <? 10 then 48 + d else 87 + d.
Proof.
  intros Hd. unfold digitChar. apply charCode_of.
  destruct (Z.ltb_spec d 10); lia.
Qed.

Lemma digitChar_digit (d : Z) :
  0 <= d < 36 ->
  isDigitChar (digitChar d) = true /\ digitValue (digitChar d) = d
  /\ isWhiteSpace (digitChar d) = false /\ lowerChar (digitChar d) = digitChar d.
Proof.
  intros Hd. unfold isDigitChar, digitValue, isWhiteSpace, lowerChar.
  rewrite (digitChar_code d Hd).
  destruct (Z.ltb_spec d 10).
  - repeat split.
    + apply orb_true_iff. left. apply andb_true_iff. split; apply Z.leb_le; lia.
    + destruct (Z.leb_spec (48 + d) 57); lia.
    + repeat (apply orb_false_iff; split); try (apply Z.eqb_neq; lia).
      apply andb_false_iff. right. apply Z.leb_gt. lia.
    + replace (65 <=? 48 + d) with false by (symmetry; apply Z.leb_gt; lia).
      replace (192 <=? 48 + d) with false by (symmetry; apply Z.leb_gt; lia).
      reflexivity.
  - repeat split.
    + apply orb_true_iff. right. apply andb_true_iff. split; apply Z.leb_le; lia.
    + destruct (Z.leb_spec (87 + d) 57); lia.
    + repeat (apply orb_false_iff; split); try (apply Z.eqb_neq; lia).
      apply andb_false_iff. right. apply Z.leb_gt. lia.
    + replace (87 + d <=? 90) with false by (symmetry; apply Z.leb_gt; lia).
      replace (192 <=? 87 + d) with false by (symmetry; apply Z.leb_gt; lia).
      rewrite andb_false_r. reflexivity.
Qed.

Lemma encodeLoop_chars (b : Z) (fuel : nat) :
  2 <= b <= 36 ->
  forall n acc ch, 0 <= n ->
  contains ch (encodeLoop fuel b n acc) ->
  contains ch acc \/ exists d, 0 <= d < b /\ ch = digitChar d.
Proof.
  intros Hb. induction fuel as [|fuel IH]; intros n acc ch Hn; cbn [encodeLoop];
    [tauto|].
  pose proof (Z.mod_pos_bound n b ltac:(lia)) as Hm.
  assert (Hstep : contains ch (String (digitChar (n mod b)) acc) ->
                  contains ch acc \/ exists d, 0 <= d < b /\ ch = digitChar d).
  { unfold contains. cbn. intros [<-|H]; [right | left; exact H].
    exists (n mod b). split; [lia | reflexivity]. }
  destruct (n <? b); [exact Hstep|].
  intros H. apply IH in H; [|apply Z.div_pos; lia].
  destruct H as [H|H]; [exact (Hstep H) | right; exact H].
Qed.

Lemma encodeLoop_nonempty (b : Z) (fuel : nat) :
  forall n acc, acc <> "" -> encodeLoop fuel b n acc <> "".
Proof.
  induction fuel as [|fuel IH]; intros n acc Hacc; cbn [encodeLoop]; [exact Hacc|].
  destruct (n <? b); [discriminate|]. apply IH. discriminate.
Qed.

Lemma digitsLoop_digitChar (b d value : Z) (s : string) :
  0 <= d < b -> b <= 36 ->
  digitsLoop b (String (digitChar d) s) value = digitsLoop b s (value * b + d).
Proof.
  intros Hd Hb. cbn [digitsLoop]. rewrite digitOf_spec.
  destruct (digitChar_digit d ltac:(lia)) as [H1 [H2 _]].
  rewrite H1, H2. cbn [bind].
  destruct (Z.geb_spec d b); [lia | reflexivity].
Qed.

(** Decoding the digits of [n] written before [acc] is decoding [acc] from
    the value [n]. *)
Lemma encodeLoop_decode (b : Z) (fuel : nat) :
  2 <= b <= 36 ->
  forall n acc, 0 <= n -> Z.log2 n < Z.of_nat fuel ->
  digitsLoop b (encodeLoop fuel b n acc) 0 = digitsLoop b acc n.
Proof.
  intros Hb. induction fuel as [|fuel IH]; intros n acc Hn Hfuel.
  - pose proof (Z.log2_nonneg n). lia.
  - cbn [encodeLoop].
    pose proof (Z.mod_pos_bound n b ltac:(lia)) as Hm.
    destruct (Z.ltb_spec n b) as [Hlt|Hge].
    + rewrite Z.mod_small by lia.
      rewrite digitsLoop_digitChar by lia. f_equal.
    + rewrite IH.
      * rewrite digitsLoop_digitChar by lia. f_equal.
        pose proof (Z.div_mod n b ltac:(lia)). lia.
      * apply Z.div_pos; lia.
      * assert (Z.log2 (n / b) < Z.log2 n); [|lia].
        assert (H2 : n / b <= n / 2)
          by (apply Z.div_le_compat_l; lia).
        assert (Z.log2 (n / 2) = Z.log2 n - 1).
        { rewrite <- Z.shiftr_div_pow2 with (n := 1) by lia.
          rewrite Z.log2_shiftr by lia.
          assert (1 <= Z.log2 n) by (apply Z.log2_le_pow2; lia). lia. }
        pose proof (Z.log2_le_mono _ _ H2). lia.
Qed.

Lemma isDigitChar_plain (ch : ascii) :
  isDigitChar ch = true -> isWhiteSpace ch = false /\ lowerChar ch = ch.
Proof.
  unfold isDigitChar, isWhiteSpace, lowerChar.
  destruct (Z.leb_spec 48 (charCode ch)), (Z.leb_spec (charCode ch) 57),
    (Z.leb_spec 97 (charCode ch)), (Z.leb_spec (charCode ch) 122);
    cbn [andb orb]; intros; try discriminate;
    (split;
     [ repeat (apply orb_false_iff; split); try (apply Z.eqb_neq; lia);
       apply andb_false_iff; right; apply Z.leb_gt; lia
     | destruct (Z.leb_spec 65 (charCode ch)), (Z.leb_spec (charCode ch) 90),
         (Z.leb_spec 192 (charCode ch)); cbn [andb orb]; try reflexivity; lia ]).
Qed.

Lemma digitsLoop_positional (radix : Z) (s : string) :
  (forall ch, contains ch s -> isDigitChar ch = true /\ digitValue ch < radix) ->
  forall value, digitsLoop radix s value = Ok (positional radix s value).
Proof.
  unfold contains.
  induction s as [|ch s IH]; intros H value; cbn [digitsLoop positional];
    [reflexivity|].
  destruct (H ch (or_introl eq_refl)) as [Hd Hlt].
  rewrite digitOf_spec, Hd. cbn [bind].
  destruct (Z.geb_spec (digitValue ch) radix); [lia|].
  apply IH. intros c Hc. apply H. right. exact Hc.
Qed.

Lemma encodeBase_chars (b n : Z) (ch : ascii) :
  2 <= b <= 36 -> 0 <= n -> contains ch (encodeBase b n) ->
  exists d, 0 <= d < b /\ ch = digitChar d.
Proof.
  intros Hb Hn Hc. unfold encodeBase in Hc.
  apply encodeLoop_chars in Hc; try assumption.
  destruct Hc as [[]|Hc]. exact Hc.
Qed.

Lemma encodeBase_nonempty (b n : Z) : encodeBase b n <> "".
Proof.
  unfold encodeBase. cbn [encodeLoop].
  destruct (n <? b); [discriminate|]. apply encodeLoop_nonempty. discriminate.
Qed.

Lemma encodeBase_digits (b n : Z) (ch : ascii) :
  2 <= b <= 36 -> 0 <= n -> contains ch (encodeBase b n) ->
  isDigitChar ch = true /\ digitValue ch < b.
Proof.
  intros Hb Hn Hc.
  destruct (encodeBase_chars b n ch Hb Hn Hc) as [d [Hd ->]].
  destruct (digitChar_digit d ltac:(lia)) as [H1 [H2 _]].
  rewrite H1, H2. split; [reflexivity | lia].
Qed.

Lemma encodeBase_normal (b n : Z) :
  2 <= b <= 36 -> 0 <= n -> toLowerCase (trim (encodeBase b n)) = encodeBase b n.
Proof.
  intros Hb Hn.
  assert (Hd : forall ch, contains ch (encodeBase b n) ->
               isWhiteSpace ch = false /\ lowerChar ch = ch).
  { intros ch Hc. apply isDigitChar_plain. apply (encodeBase_digits b n ch Hb Hn Hc). }
  unfold trim, toLowerCase.
  rewrite trimStart_id, trimEnd_id, mapString_id;
    try reflexivity; intros ch Hc; apply (Hd ch Hc).
Qed.

Lemma digitChar_nonzero (d : Z) : 1 <= d < 36 -> digitChar d <> "0"%char.
Proof.
  intros Hd E. apply (f_equal charCode) in E.
  rewrite digitChar_code in E by lia.
  change (charCode "0") with 48 in E.
  destruct (Z.ltb_spec d 10); lia.
Qed.

(** The first digit of a positive number is not zero. *)
Lemma encodeLoop_head (b : Z) (fuel : nat) :
  2 <= b <= 36 ->
  forall n acc, 1 <= n -> Z.log2 n < Z.of_nat fuel ->
  exists d rest, 1 <= d < b /\ encodeLoop fuel b n acc = String (digitChar d) rest.
Proof.
  intros Hb. induction fuel as [|fuel IH]; intros n acc Hn Hfuel.
  - pose proof (Z.log2_nonneg n). lia.
  - cbn [encodeLoop]. destruct (Z.ltb_spec n b) as [Hlt|Hge].
    + exists n, acc. rewrite Z.mod_small by lia. split; [lia | reflexivity].
    + apply IH.
      * apply Z.div_le_lower_bound; lia.
      * assert (Z.log2 (n / b) < Z.log2 n); [|lia].
        assert (H2 : n / b <= n / 2) by (apply Z.div_le_compat_l; lia).
        assert (Z.log2 (n / 2) = Z.log2 n - 1).
        { rewrite <- Z.shiftr_div_pow2 with (n := 1) by lia.
          rewrite Z.log2_shiftr by lia.
          assert (1 <= Z.log2 n) by (apply Z.log2_le_pow2; lia). lia. }
        pose proof (Z.log2_le_mono _ _ H2). lia.
Qed.

(** The encoding is canonical: it is "0" or it starts with a digit that is
    not zero. *)
Lemma encodeBase_canonical (b n : Z) :
  2 <= b <= 36 -> 0 <= n ->
  (n = 0 /\ encodeBase b n = "0")
  \/ exists d rest, 1 <= d < b /\ encodeBase b n = String (digitChar d) rest.
Proof.
  intros Hb Hn. destruct (Z.eq_dec n 0) as [->|Hnz].
  - left. split; [reflexivity|].
    unfold encodeBase. cbn [Z.log2 Z.to_nat encodeLoop].
    destruct (Z.ltb_spec 0 b); [reflexivity | lia].
  - right. unfold encodeBase. apply encodeLoop_head; try lia.
Qed.

(** The encoder writes [n]: its output is a string of digits of the base
    whose positional value is [n]. *)
Lemma encodeBase_value (b n : Z) :
  2 <= b <= 36 -> 0 <= n -> positional b (encodeBase b n) 0 = n.
Proof.
  intros Hb Hn.
  pose proof (digitsLoop_positional b (encodeBase b n)
                (fun ch Hc => encodeBase_digits b n ch Hb Hn Hc) 0) as H.
  unfold encodeBase in H at 1.
  rewrite encodeLoop_decode in H by lia.
  cbn [digitsLoop] in H. injection H as H. symmetry. exact H.
Qed.

(** C4: for every base b in [2, 36] and every non-negative integer n,
    decoding the canonical base-b encoding of n at base b returns n.  The
    encoding is the string of digits of the base, without a leading zero
    unless it is "0", whose positional value is n. *)
Theorem C4_decode_encode {FT : FloatText} (b n : Z) :
  2 <= b <= 36 -> 0 <= n ->
  parseBigIntFromBase (JStr (encodeBase b n)) (JNum (Fin (inject_Z b))) = Ok n
  /\ positional b (encodeBase b n) 0 = n
  /\ ((n = 0 /\ encodeBase b n = "0")
      \/ exists d rest, 1 <= d < b /\ encodeBase b n = String (digitChar d) rest)
  /\ (forall ch, contains ch (encodeBase b n) ->
        isDigitChar ch = true /\ digitValue ch < b).
Proof.
  intros Hb Hn.
  split; [|split; [|split]]; [| | apply encodeBase_canonical; assumption |].
  - rewrite parse_string_radix by (apply encodeBase_nonempty || lia).
    rewrite encodeBase_normal by assumption.
    unfold encodeBase. rewrite encodeLoop_decode; [reflexivity | lia | lia |].
    pose proof (Z.log2_nonneg n). lia.
  - apply encodeBase_value; assumption.
  - intros ch Hc. apply (encodeBase_digits b n ch Hb Hn Hc).
Qed.

Lemma C4_decode_encode_witness :
  2 <= 16 <= 36 /\ 0 <= 48879
  /\ encodeBase 16 48879 = "beef"
  /\ forall FT : FloatText,
       parseBigIntFromBase (JStr (encodeBase 16 48879)) (JNum (Fin (inject_Z 16)))
       = Ok 48879.
Proof.
  split; [lia|]. split; [lia|]. split; [reflexivity|].
  intros FT. apply (C4_decode_encode 16 48879); lia.
Defined.

Lemma digitsLoop_result (base : Z) (s : string) :
  (exists ch, contains ch s /\ badChar base ch) ->
  exists e, digitsLoop base s 0 = Err e /\ isInvalidDigit e = true.
Proof.
  intros [ch [Hc Hbad]].
  destruct (digitsLoop base s 0) as [v|e] eqn:E.
  - exfalso. exact (digitsLoop_ok base s 0 v E ch Hc Hbad).
  - exists e. split; [reflexivity|]. apply (digitsLoop_error base s 0 e E).
Qed.

(** C6: for a non-empty string and a radix r in [2, 36] the decoder fails
    with InvalidDigit if and only if the lower-cased, trimmed string has a
    character outside '0'..'9', 'a'..'z' or one whose digit value is at
    least r, and it succeeds otherwise; a string with the character 'g'
    fails with InvalidDigit in base 10. *)
Theorem C6_invalid_digit {FT : FloatText} :
  (forall (s : string) (r : Z),
     s <> "" -> 2 <= r <= 36 ->
     let outcome := parseBigIntFromBase (JStr s) (JNum (Fin (inject_Z r))) in
     let bad := exists ch, contains ch (toLowerCase (trim s)) /\ badChar r ch in
     ((exists e, outcome = Err e /\ isInvalidDigit e = true) <-> bad)
     /\ (~ bad -> exists v, outcome = Ok v))
  /\ (forall s : string,
        contains "g" s ->
        exists e, parseBigIntFromBase (JStr s) (JNum (Fin (inject_Z 10))) = Err e
                  /\ isInvalidDigit e = true).
Proof.
  split.
  - intros s r Hs Hr. cbv zeta.
    rewrite parse_string_radix by (assumption || lia).
    split; [split|].
    + intros [e [He _]]. apply (digitsLoop_error r _ 0 e He).
    + apply digitsLoop_result.
    + intros Hgood.
      destruct (digitsLoop r (toLowerCase (trim s)) 0) as [v|e] eqn:E.
      * exists v. reflexivity.
      * exfalso. apply Hgood. apply (digitsLoop_error r _ 0 e E).
  - intros s Hg.
    assert (Hs : s <> "") by (intros ->; destruct Hg).
    rewrite parse_string_radix by (assumption || lia).
    apply digitsLoop_result. exists "g"%char. split.
    + change "g"%char with (lowerChar "g"). apply contains_map.
      unfold trim. apply contains_trimEnd; [|reflexivity].
      apply contains_trimStart; [exact Hg | reflexivity].
    + right. cbn. lia.
Qed.

Lemma C6_invalid_digit_witness :
  " 12G4 " <> "" /\ 2 <= 16 <= 36
  /\ forall FT : FloatText,
       exists e, parseBigIntFromBase (JStr " 12G4 ") (JNum (Fin (inject_Z 16))) = Err e
                 /\ isInvalidDigit e = true.
Proof.
  split; [discriminate|]. split; [lia|].
  intros FT.
  apply (proj2 (proj1 (proj1 C6_invalid_digit " 12G4 " 16 ltac:(discriminate) ltac:(lia)))).
  exists "g"%char. split.
  - cbn. tauto.
  - right. cbn. lia.
Defined.

(** C10: the decoder does not check that the radix lies in [2, 36].  For
    every radix above 36 and every non-empty string of the characters
    0-9 and a-z, whose digits are all below the radix, it succeeds and
    returns the positional value; with the radix 37 and the string "z" it
    returns 35. *)
Theorem C10_radix_unchecked {FT : FloatText} :
  (forall (radix : Z) (s : string),
     36 < radix -> s <> "" ->
     (forall ch, contains ch s -> isDigitChar ch = true) ->
     (forall ch, contains ch s -> digitValue ch < radix)
     /\ parseBigIntFromBase (JStr s) (JNum (Fin (inject_Z radix)))
        = Ok (positional radix s 0))
  /\ parseBigIntFromBase (JStr "z") (JNum (Fin (inject_Z 37))) = Ok 35.
Proof.
  split; [|reflexivity].
  intros radix s Hr Hs Hd.
  assert (Hlt : forall ch, contains ch s -> digitValue ch < radix).
  { intros ch Hc. pose proof (digitValue_range ch (Hd ch Hc)). lia. }
  split; [exact Hlt|].
  rewrite parse_string_radix by (assumption || lia).
  unfold trim, toLowerCase.
  rewrite trimStart_id, trimEnd_id, mapString_id;
    try (intros ch Hc; apply (isDigitChar_plain ch (Hd ch Hc))).
  apply digitsLoop_positional. intros ch Hc. split; [apply Hd | apply Hlt]; exact Hc.
Qed.

Lemma C10_radix_unchecked_witness :
  36 < 37 /\ "z" <> ""
  /\ (forall ch, contains ch "z" -> isDigitChar ch = true)
  /\ (forall FT : FloatText,
        parseBigIntFromBase (JStr "z") (JNum (Fin (inject_Z 37)))
        = Ok (positional 37 "z" 0)).
Proof.
  assert (Hd : forall ch, contains ch "z" -> isDigitChar ch = true)
    by (intros ch [<-|[]]; reflexivity).
  split; [lia|]. split; [discriminate|]. split; [exact Hd|].
  intros FT.
  apply (proj1 C10_radix_unchecked 37 "z"); [lia | discriminate | exact Hd].
Defined.

(** ** The script: selection and output *)

Section Script.
Context {FT : FloatText}.

Lemma solve_points (data : list (string * jsval)) (points : list point) :
  selectPoints data = Ok points ->
  solve data = f <- computeConstantC points ;; formatResult f.
Proof. intros H. unfold solve. rewrite H. reflexivity. Qed.

Lemma formatResult_cases (r : fraction) :
  0 < den r ->
  (den r = 1 -> formatResult r = Ok (BigInt_toString (num r)))
  /\ (den r <> 1 -> (den r | num r) ->
      formatResult r = Ok (BigInt_toString (Z.quot (num r) (den r)))
      /\ Z.quot (num r) (den r) * den r = num r)
  /\ (den r <> 1 -> ~ (den r | num r) ->
      formatResult r
      = Ok (BigInt_toString (num r) ++ "/" ++ BigInt_toString (den r))%string
      /\ 1 < den r).
Proof.
  intros Hpos. unfold formatResult, bigRem, bigDiv.
  repeat split.
  - intros ->. reflexivity.
  - destruct (Z.eqb_spec (den r) 1); [contradiction|].
    destruct (Z.eqb_spec (den r) 0); [lia|]. cbn [bind].
    destruct H0 as [c Hc]. rewrite Hc, Z.rem_mul by lia. reflexivity.
  - destruct H0 as [c Hc]. rewrite Hc, Z.quot_mul by lia. reflexivity.
  - destruct (Z.eqb_spec (den r) 1); [contradiction|].
    destruct (Z.eqb_spec (den r) 0); [lia|]. cbn [bind].
    destruct (Z.eqb_spec (Z.rem (num r) (den r)) 0) as [E|E]; [|reflexivity].
    exfalso. apply H0. exists (Z.quot (num r) (den r)).
    pose proof (Z.quot_rem' (num r) (den r)). lia.
  - lia.
Qed.

End Script.

Lemma mapM_nth_error {A B : Type} (f : A -> result B) (l : list A) :
  forall (l' : list B) (i : nat) (a : A),
  mapM f l = Ok l' -> nth_error l i = Some a ->
  exists b, f a = Ok b /\ nth_error l' i = Some b.
Proof.
  induction l as [|h l IH]; intros l' i a Hm Hn.
  - destruct i; discriminate.
  - cbn [mapM] in Hm. destruct (f h) as [b|] eqn:Eh; [|discriminate].
    cbn [bind] in Hm. destruct (mapM f l) as [bs|] eqn:El; [|discriminate].
    injection Hm as <-. destruct i as [|i]; cbn [nth_error] in *.
    + injection Hn as <-. exists b. split; [exact Eh | reflexivity].
    + exact (IH bs i a eq_refl Hn).
Qed.

Lemma pointOf_x {FT : FloatText} (e : entry) (p : point) :
  pointOf e = Ok p -> x p = xBig e.
Proof.
  unfold pointOf. destruct (parseBigIntFromBase (val e) (base e)); [|discriminate].
  cbn [bind]. intros H. injection H as <-. reflexivity.
Qed.

(** C2: when two of the selected entries have the same x-coordinate the
    script prints no result.  Once their values are decoded, the evaluator
    throws the division-by-zero [RangeError] on the points (the
    DegenerateInput failure of the specification) and this is the error of
    the script; a value that cannot be decoded fails before that. *)
Theorem C2_duplicate_x {FT : FloatText} (data : list (string * jsval))
    (es : list entry) (i j : nat) (e1 e2 : entry) :
  selectEntries data = Ok es ->
  (i < j)%nat -> nth_error es i = Some e1 -> nth_error es j = Some e2 ->
  xBig e1 = xBig e2 ->
  printed (solve data) = None
  /\ (forall points,
        selectPoints data = Ok points ->
        computeConstantC points = Err RangeError_DivisionByZero
        /\ solve data = Err RangeError_DivisionByZero
        /\ isDegenerateInput RangeError_DivisionByZero = true)
  /\ (forall e, selectPoints data = Err e -> solve data = Err e).
Proof.
  intros Hsel Hij Hi Hj Hx.
  assert (Hpts : forall points, selectPoints data = Ok points ->
                 computeConstantC points = Err RangeError_DivisionByZero).
  { intros points Hp. unfold selectPoints in Hp. rewrite Hsel in Hp. cbn [bind] in Hp.
    destruct (mapM_nth_error pointOf es points i e1 Hp Hi) as [p [Hp1 Hpi]].
    destruct (mapM_nth_error pointOf es points j e2 Hp Hj) as [q [Hq1 Hqj]].
    destruct (nth_error_two points i j p q Hij Hpi Hqj) as [pre [mid [post ->]]].
    apply computeConstantC_duplicate.
    rewrite (pointOf_x e1 p Hp1), (pointOf_x e2 q Hq1). exact Hx. }
  unfold solve.
  destruct (selectPoints data) as [points|e] eqn:E; cbn [bind].
  - rewrite (Hpts points eq_refl). cbn [bind printed].
    split; [reflexivity|]. split; [|discriminate].
    intros points' H'. injection H' as <-.
    split; [apply Hpts; reflexivity|]. split; reflexivity.
  - split; [reflexivity|]. split; [discriminate|].
    intros e' H'. injection H' as <-. reflexivity.
Qed.

Lemma C2_duplicate_x_witness :
  (forall FT : FloatText,
     selectEntries docDuplicate
     = Ok [ {| keyStr := "1"; xBig := 1; base := JNum (Fin (inject_Z 10)); val := JStr "5" |};
            {| keyStr := "01"; xBig := 1; base := JNum (Fin (inject_Z 10)); val := JStr "7" |} ])
  /\ (forall FT : FloatText,
        printed (solve docDuplicate) = None
        /\ solve docDuplicate = Err RangeError_DivisionByZero).
Proof.
  split; [intros FT; reflexivity|].
  intros FT.
  pose proof (C2_duplicate_x docDuplicate _ 0 1 _ _ eq_refl ltac:(lia) eq_refl eq_refl eq_refl)
    as [Hp [Hd _]].
  split; [exact Hp|].
  apply (Hd [mkPoint 1 5; mkPoint 1 7]). reflexivity.
Defined.

(** C5: a result fraction has a positive denominator.  With denominator 1
    the script prints the numerator in base 10; otherwise, when the
    denominator divides the numerator, it prints the quotient; otherwise it
    prints numerator, a slash and denominator, the denominator is greater
    than 1 and, for a fraction the evaluator has returned,
    gcd(|numerator|, denominator) = 1. *)
Theorem C5_output_format (r : fraction) :
  0 < den r ->
  (den r = 1 -> formatResult r = Ok (BigInt_toString (num r)))
  /\ (den r <> 1 -> (den r | num r) ->
      formatResult r = Ok (BigInt_toString (Z.quot (num r) (den r)))
      /\ Z.quot (num r) (den r) * den r = num r)
  /\ (den r <> 1 -> ~ (den r | num r) ->
      formatResult r
      = Ok (BigInt_toString (num r) ++ "/" ++ BigInt_toString (den r))%string
      /\ 1 < den r)
  /\ (forall points : list point,
        computeConstantC points = Ok r ->
        0 < den r /\ Z.gcd (Z.abs (num r)) (den r) = 1
        /\ forall (FT : FloatText) (data : list (string * jsval)),
             selectPoints data = Ok points -> solve data = formatResult r).
Proof.
  intros Hpos.
  destruct (formatResult_cases r Hpos) as [H1 [H2 H3]].
  repeat split; try assumption.
  - apply (H2 H H0).
  - apply (H2 H H0).
  - apply (H3 H H0).
  - lia.
  - apply (computeConstantC_ok_reduced points r H).
  - intros FT data Hsel. rewrite (solve_points data points Hsel), H. reflexivity.
Qed.

Lemma C5_output_format_witness :
  0 < den {| num := 1; den := 2 |}
  /\ formatResult {| num := 1; den := 2 |} = Ok "1/2"
  /\ formatResult {| num := -6; den := 3 |} = Ok "-2"
  /\ formatResult {| num := -7; den := 1 |} = Ok "-7"
  /\ (forall FT : FloatText,
        solve [("1", entryObj 10 "1"); ("3", entryObj 10 "2"); ("keys", keysObj 2)]
        = Ok "1/2").
Proof.
  split; [reflexivity|]. split.
  { apply (proj1 (proj2 (proj2 (C5_output_format {| num := 1; den := 2 |} eq_refl)))).
    - discriminate.
    - intros [c Hc]. cbn in Hc. lia. }
  repeat split; reflexivity.
Defined.

(** C8 (as amended): a document whose keys.k is 0 is not an error.  No
    point is selected, and when the entries can be collected (every key is
    an integer literal and no entry is null) the script prints 0; otherwise
    it fails with the error of the collection. *)
Theorem C8_zero_k {FT : FloatText} (data kprops : list (string * jsval)) (q : Q) :
  getOwn "keys" data = JObj kprops ->
  getOwn "k" kprops = JNum (Fin q) ->
  (q == 0)%Q ->
  (forall es, collectEntries data = Ok es ->
     selectPoints data = Ok [] /\ solve data = Ok "0")
  /\ (forall e, collectEntries data = Err e -> solve data = Err e).
Proof.
  intros Hkeys Hk Hq.
  assert (Hqn : Qnum q = 0) by (unfold Qeq in Hq; cbn in Hq; lia).
  assert (HreadK : readK data = Ok (Fin q)).
  { unfold readK. rewrite Hkeys. cbn [ToBoolean negb getProp bind].
    rewrite Hk. reflexivity. }
  split.
  - intros es Hes.
    assert (Hsel : selectPoints data = Ok []).
    { unfold selectPoints, selectEntries. rewrite HreadK, Hes. cbn [bind].
      unfold lengthLt, sliceEnd. rewrite Hqn.
      destruct (Z.ltb_spec (Z.of_nat (List.length (sortEntries es)) * Z.pos (Qden q)) 0);
        [lia|].
      cbn [bind]. rewrite Z.quot_0_l by lia. cbn [Z.ltb Z.compare].
      rewrite Z.min_l by lia. reflexivity. }
    split; [exact Hsel|]. rewrite (solve_points data [] Hsel). reflexivity.
  - intros e He. unfold solve, selectPoints, selectEntries.
    rewrite HreadK, He. reflexivity.
Qed.

Lemma C8_zero_k_witness :
  getOwn "keys" docZeroK = keysObj 0
  /\ (forall FT : FloatText,
        selectPoints docZeroK = Ok [] /\ solve docZeroK = Ok "0").
Proof.
  split; [reflexivity|].
  intros FT.
  apply (proj1 (C8_zero_k docZeroK [("k", JNum (Fin 0))] 0
                  eq_refl eq_refl (Qeq_refl 0))
           [ {| keyStr := "1"; xBig := 1; base := JNum (Fin (inject_Z 10)); val := JStr "5" |};
             {| keyStr := "2"; xBig := 2; base := JNum (Fin (inject_Z 10)); val := JStr "9" |} ]).
  reflexivity.
Defined.

(** C8 as stated fails: with keys.k = 0 the script prints 0. *)
Lemma C8_counterexample :
  getProp (getOwn "keys" docZeroK) "k" = Ok (JNum (Fin 0))
  /\ (forall FT : FloatText, solve docZeroK = Ok "0")
  /\ ~ (forall (FT : FloatText) (data : list (string * jsval)),
          getProp (getOwn "keys" data) "k" = Ok (JNum (Fin 0)) ->
          exists e, solve data = Err e).
Proof.
  split; [reflexivity|]. split; [reflexivity|].
  intros H.
  pose (FT := {| StringToNumber := fun _ => NaN; NumberToString := fun _ => "" |}).
  destruct (H FT docZeroK eq_refl) as [e He]. discriminate He.
Qed.

Lemma mapM_In_error {A B : Type} (f : A -> result B) (l : list A) (a : A) (e : error) :
  In a l -> f a = Err e -> exists e', mapM f l = Err e'.
Proof.
  induction l as [|h l IH]; intros Hin He; [destruct Hin|].
  cbn [mapM]. destruct Hin as [->|Hin].
  - rewrite He. eexists. reflexivity.
  - destruct (f h); [|eexists; reflexivity]. cbn [bind].
    destruct (IH Hin He) as [e' ->]. eexists. reflexivity.
Qed.

Lemma parse_missing_base {FT : FloatText} (s : string) :
  s <> "" -> parseBigIntFromBase (JStr s) JUndefined = Err RangeError_NotAnInteger.
Proof.
  intros Hs. unfold parseBigIntFromBase. cbn [ToBoolean].
  apply String.eqb_neq in Hs. rewrite Hs. reflexivity.
Qed.

(** C9 (as amended): a document without keys, or whose keys has no k, fails
    with the MalformedDocument error before any result.  A selected entry
    without base whose value is a non-empty string makes the script fail,
    with the [RangeError] of the conversion of its base to a BigInt.  An
    entry without value is no error: its y is decoded as 0, whatever its
    base. *)
Theorem C9_missing_fields {FT : FloatText} :
  (forall data : list (string * jsval),
     getOwn "keys" data = JUndefined
     \/ (exists kprops, getOwn "keys" data = JObj kprops
                        /\ getOwn "k" kprops = JUndefined) ->
     solve data = Err MissingKeys /\ isMalformedDocument MissingKeys = true)
  /\ (forall (data : list (string * jsval)) (es : list entry) (e : entry) (s : string),
        selectEntries data = Ok es -> In e es ->
        base e = JUndefined -> val e = JStr s -> s <> "" ->
        pointOf e = Err RangeError_NotAnInteger
        /\ exists err, solve data = Err err)
  /\ (forall e : entry,
        val e = JUndefined -> pointOf e = Ok {| x := xBig e; y := 0 |}).
Proof.
  split; [|split].
  - intros data Hk. split; [|reflexivity].
    unfold solve, selectPoints, selectEntries, readK.
    destruct Hk as [Hk|[kprops [Hk Hkk]]]; rewrite Hk; [reflexivity|].
    cbn [ToBoolean negb getProp bind]. rewrite Hkk. reflexivity.
  - intros data es e s Hsel Hin Hb Hv Hs.
    assert (Hp : pointOf e = Err RangeError_NotAnInteger).
    { unfold pointOf. rewrite Hb, Hv, (parse_missing_base s Hs). reflexivity. }
    split; [exact Hp|].
    destruct (mapM_In_error pointOf es e _ Hin Hp) as [e' He'].
    exists e'. unfold solve, selectPoints. rewrite Hsel. cbn [bind].
    rewrite He'. reflexivity.
  - intros e Hv. unfold pointOf, parseBigIntFromBase. rewrite Hv. reflexivity.
Qed.

Lemma C9_missing_fields_witness :
  getOwn "keys" docNoKeys = JUndefined
  /\ (forall FT : FloatText, solve docNoKeys = Err MissingKeys)
  /\ (forall FT : FloatText, exists err, solve docNoBase = Err err).
Proof.
  split; [reflexivity|]. split.
  - intros FT.
    apply (proj1 (proj1 C9_missing_fields docNoKeys (or_introl eq_refl))).
  - intros FT.
    apply (proj2 (proj1 (proj2 C9_missing_fields) docNoBase
             [ {| keyStr := "1"; xBig := 1; base := JUndefined; val := JStr "12" |} ]
             {| keyStr := "1"; xBig := 1; base := JUndefined; val := JStr "12" |}
             "12" eq_refl (or_introl eq_refl) eq_refl eq_refl ltac:(discriminate))).
Defined.

(** C9 as stated fails: an entry without its value field is decoded as
    y = 0 and the script prints a result. *)
Lemma C9_counterexample :
  getProp (getOwn "1" docNoValue) "value" = Ok JUndefined
  /\ (forall FT : FloatText, solve docNoValue = Ok "0")
  /\ ~ (forall (FT : FloatText) (data : list (string * jsval)) (key : string),
          In key (map fst data) -> key <> "keys" ->
          getProp (getOwn key data) "value" = Ok JUndefined ->
          exists e, solve data = Err e /\ isMalformedDocument e = true).
Proof.
  split; [reflexivity|]. split; [reflexivity|].
  intros H.
  pose (FT := {| StringToNumber := fun _ => NaN; NumberToString := fun _ => "" |}).
  destruct (H FT docNoValue "1" (or_introl eq_refl) ltac:(discriminate) eq_refl)
    as [e [He _]].
  discriminate He.
Qed.

(** ** The order of the entries *)

Lemma filter_perm {A : Type} (f : A -> bool) (l l' : list A) :
  Permutation l l' -> Permutation (filter f l) (filter f l').
Proof.
  induction 1 as [|a l l' _ IH|a b l|l l' l'' _ IH1 _ IH2]; cbn [filter].
  - constructor.
  - destruct (f a); [constructor|]; exact IH.
  - destruct (f a), (f b); try apply Permutation_refl. apply perm_swap.
  - exact (Permutation_trans IH1 IH2).
Qed.

Lemma getOwn_perm (name : string) (d1 d2 : list (string * jsval)) :
  Permutation d1 d2 -> NoDup (map fst d1) -> getOwn name d1 = getOwn name d2.
Proof.
  induction 1 as [|[k v] l l' Hp IH|[k1 v1] [k2 v2] l|l l' l'' Hp1 IH1 Hp2 IH2];
    intros Hnd; cbn [getOwn].
  - reflexivity.
  - rewrite IH; [reflexivity|]. inversion Hnd; assumption.
  - destruct (String.eqb_spec k1 name) as [->|], (String.eqb_spec k2 name) as [->|];
      try reflexivity.
    exfalso. inversion Hnd as [|? ? Hnotin _]; subst. apply Hnotin. left. reflexivity.
  - rewrite IH1 by assumption. apply IH2.
    apply (Permutation_NoDup (Permutation_map fst Hp1) Hnd).
Qed.

Lemma sameOutcome_trans {B : Type} (r1 r2 r3 : result (list B)) :
  sameOutcome r1 r2 -> sameOutcome r2 r3 -> sameOutcome r1 r3.
Proof.
  destruct r1, r2, r3; cbn; try tauto. apply Permutation_trans.
Qed.

Lemma mapM_perm {A B : Type} (f : A -> result B) (l l' : list A) :
  Permutation l l' -> sameOutcome (mapM f l) (mapM f l').
Proof.
  induction 1 as [|a l l' _ IH|a b l|l l' l'' _ IH1 _ IH2]; cbn [mapM].
  - constructor.
  - destruct (f a); cbn [bind sameOutcome]; [|exact I].
    destruct (mapM f l), (mapM f l'); cbn in *; try tauto.
    constructor. exact IH.
  - destruct (f a), (f b), (mapM f l); cbn; try tauto.
    apply perm_swap.
  - exact (sameOutcome_trans _ _ _ IH1 IH2).
Qed.

Lemma mapM_ext_in {A B : Type} (f g : A -> result B) (l : list A) :
  (forall a, In a l -> f a = g a) -> mapM f l = mapM g l.
Proof.
  induction l as [|a l IH]; intros H; [reflexivity|]. cbn [mapM].
  rewrite (H a (or_introl eq_refl)), IH; [reflexivity|].
  intros b Hb. apply H. right. exact Hb.
Qed.

Lemma compareEntries_lt (a b : entry) :
  (compareEntries a b <? 0) = (xBig a <? xBig b).
Proof.
  unfold compareEntries.
  destruct (Z.ltb_spec (xBig a) (xBig b)); [reflexivity|].
  destruct (xBig a >? xBig b); reflexivity.
Qed.

Lemma insertEntry_cons (e h : entry) (t : list entry) :
  insertEntry e (h :: t)
  = if xBig h <? xBig e then h :: insertEntry e t else e :: h :: t.
Proof. cbn [insertEntry]. rewrite compareEntries_lt. reflexivity. Qed.

Ltac split_ltb :=
  repeat (rewrite ?insertEntry_cons; cbv iota;
          match goal with
          | |- context [Z.ltb ?a ?b] => destruct (Z.ltb_spec a b)
          end);
  cbv iota; try lia.

(** Insertions of entries with different abscissas commute. *)
Lemma insertEntry_comm (a b : entry) (l : list entry) :
  xBig a <> xBig b ->
  insertEntry a (insertEntry b l) = insertEntry b (insertEntry a l).
Proof.
  intros Hab. induction l as [|h l IH].
  - change (insertEntry b []) with [b]. change (insertEntry a []) with [a].
    split_ltb; reflexivity.
  - split_ltb; try reflexivity. rewrite IH. reflexivity.
Qed.

(** On entries with pairwise different abscissas the sorted array does not
    depend on the order of the entries. *)
Lemma sortEntries_perm (l l' : list entry) :
  Permutation l l' -> NoDup (map xBig l) -> sortEntries l = sortEntries l'.
Proof.
  induction 1 as [|a l l' Hp IH|a b l|l l' l'' Hp1 IH1 Hp2 IH2]; intros Hnd;
    cbn [sortEntries].
  - reflexivity.
  - rewrite IH; [reflexivity|]. inversion Hnd; assumption.
  - apply insertEntry_comm. cbn [map] in Hnd.
    inversion Hnd as [|? ? Hnotin _]; subst. intros E. apply Hnotin. left.
    symmetry. exact E.
  - rewrite IH1 by assumption. apply IH2.
    apply (Permutation_NoDup (Permutation_map xBig Hp1) Hnd).
Qed.

Lemma insertEntry_perm (e : entry) (l : list entry) :
  Permutation (insertEntry e l) (e :: l).
Proof.
  induction l as [|h l IH]; [apply Permutation_refl|].
  rewrite insertEntry_cons. destruct (xBig h <? xBig e).
  - apply Permutation_trans with (h :: e :: l); [|apply perm_swap].
    apply perm_skip. exact IH.
  - apply Permutation_refl.
Qed.

Lemma sortEntries_perm_self (l : list entry) : Permutation (sortEntries l) l.
Proof.
  induction l as [|e l IH]; cbn [sortEntries]; [constructor|].
  apply Permutation_trans with (e :: sortEntries l).
  - apply insertEntry_perm.
  - apply perm_skip. exact IH.
Qed.

Lemma insertEntry_sorted (e : entry) (l : list entry) :
  Sorted xLe l -> Sorted xLe (insertEntry e l).
Proof.
  unfold xLe. induction l as [|h l IH]; intros Hs.
  - repeat constructor.
  - rewrite insertEntry_cons. inversion Hs as [|? ? Hs' Hhd]; subst.
    destruct (Z.ltb_spec (xBig h) (xBig e)).
    + constructor; [apply IH; exact Hs'|].
      destruct l as [|h' l].
      * repeat constructor. lia.
      * rewrite insertEntry_cons. inversion Hhd; subst.
        destruct (xBig h' <? xBig e); constructor; lia.
    + constructor; [exact Hs|]. constructor. lia.
Qed.

(** The sort puts the entries in ascending order of their x. *)
Lemma sortEntries_sorted (l : list entry) : Sorted xLe (sortEntries l).
Proof.
  induction l as [|e l IH]; cbn [sortEntries]; [constructor|].
  apply insertEntry_sorted. exact IH.
Qed.

Lemma entryOf_perm (d1 d2 : list (string * jsval)) (key : string) :
  Permutation d1 d2 -> NoDup (map fst d1) -> entryOf d1 key = entryOf d2 key.
Proof.
  intros Hp Hnd. unfold entryOf. rewrite (getOwn_perm key d1 d2 Hp Hnd). reflexivity.
Qed.

Lemma collectEntries_perm (d1 d2 : list (string * jsval)) :
  Permutation d1 d2 -> NoDup (map fst d1) ->
  sameOutcome (collectEntries d1) (collectEntries d2).
Proof.
  intros Hp Hnd. unfold collectEntries.
  rewrite (mapM_ext_in (entryOf d1) (entryOf d2))
    by (intros key _; apply entryOf_perm; assumption).
  apply mapM_perm, filter_perm, Permutation_map. exact Hp.
Qed.

Lemma readK_perm {FT : FloatText} (d1 d2 : list (string * jsval)) :
  Permutation d1 d2 -> NoDup (map fst d1) -> readK d1 = readK d2.
Proof.
  intros Hp Hnd. unfold readK. rewrite (getOwn_perm "keys" d1 d2 Hp Hnd). reflexivity.
Qed.

(** C7 (as amended): for a document whose keys denote pairwise distinct
    integers, the printed output is the same for every order of its
    entries, and so is the whole outcome when the entries can be
    collected: the selection sorts the entries in ascending order of x, as
    integers, before it takes the first k. *)
Theorem C7_order_independent {FT : FloatText} (d1 d2 : list (string * jsval)) :
  NoDup (map fst d1) ->
  Permutation d1 d2 ->
  (forall es, collectEntries d1 = Ok es -> NoDup (map xBig es)) ->
  printed (solve d1) = printed (solve d2)
  /\ (forall es, collectEntries d1 = Ok es ->
        solve d1 = solve d2
        /\ selectEntries d1 = selectEntries d2
        /\ Sorted xLe (sortEntries es) /\ Permutation (sortEntries es) es).
Proof.
  intros Hnd Hp Hx.
  pose proof (readK_perm d1 d2 Hp Hnd) as Hk.
  pose proof (collectEntries_perm d1 d2 Hp Hnd) as Hc.
  unfold solve, selectPoints, selectEntries. rewrite <- Hk.
  destruct (readK d1) as [k|e]; cbn [bind].
  - destruct (collectEntries d1) as [es1|e1], (collectEntries d2) as [es2|e2];
      cbn [sameOutcome bind] in *; try contradiction.
    + rewrite (sortEntries_perm es1 es2 Hc (Hx es1 eq_refl)).
      split; [reflexivity|]. intros es Hes. injection Hes as <-.
      split; [reflexivity|]. split; [reflexivity|].
      split; [apply sortEntries_sorted | apply sortEntries_perm_self].
    + split; [reflexivity | discriminate].
  - split; [reflexivity|]. intros es _.
    split; [reflexivity|]. split; [reflexivity|].
    split; [apply sortEntries_sorted | apply sortEntries_perm_self].
Qed.

Lemma C7_order_independent_witness :
  NoDup (map fst docLinearA)
  /\ Permutation docLinearA docLinearB
  /\ (forall FT : FloatText,
        printed (solve docLinearA) = printed (solve docLinearB)
        /\ solve docLinearA = Ok "1").
Proof.
  assert (Hnd : NoDup (map fst docLinearA))
    by (repeat constructor; cbn; intuition discriminate).
  assert (Hp : Permutation docLinearA docLinearB).
  { unfold docLinearA, docLinearB.
    apply Permutation_trans with
      [("keys", keysObj 2); ("002", entryObj 10 "9"); ("01", entryObj 10 "5")].
    - apply perm_skip, perm_swap.
    - apply perm_swap. }
  split; [exact Hnd|]. split; [exact Hp|].
  intros FT. split; [|reflexivity].
  apply (proj1 (C7_order_independent docLinearA docLinearB Hnd Hp
                  ltac:(intros es Hes; cbv in Hes; injection Hes as <-;
                        repeat constructor; cbn; intuition discriminate))).
Defined.

(** C7 as stated fails: two keys that denote the same integer keep their
    document order under the sort, and with k = 1 the order of the entries
    decides which one is selected. *)
Lemma C7_counterexample :
  Permutation docOrderA docOrderB
  /\ (forall FT : FloatText, solve docOrderA = Ok "5" /\ solve docOrderB = Ok "7")
  /\ ~ (forall (FT : FloatText) (d1 d2 : list (string * jsval)),
          NoDup (map fst d1) -> Permutation d1 d2 ->
          printed (solve d1) = printed (solve d2)).
Proof.
  assert (Hp : Permutation docOrderA docOrderB)
    by (unfold docOrderA, docOrderB; apply perm_skip, perm_swap).
  split; [exact Hp|]. split; [intros FT; split; reflexivity|].
  intros H.
  pose (FT := {| StringToNumber := fun _ => NaN; NumberToString := fun _ => "" |}).
  assert (Hnd : NoDup (map fst docOrderA))
    by (repeat constructor; cbn; intuition discriminate).
  specialize (H FT docOrderA docOrderB Hnd Hp). discriminate H.
Qed.

(** * Further properties *)

(** ** The gcd *)

Lemma gcdLoop_more (n : nat) :
  forall fuel a b, 0 <= a -> 0 <= b < 2 ^ Z.of_nat n ->
  (2 * n + 1 <= fuel)%nat ->
  gcdLoop fuel a b = Z.gcd a b.
Proof.
  induction n as [|n IH]; intros fuel a b Ha Hb Hfuel.
  - assert (b = 0) by (change (2 ^ Z.of_nat 0) with 1 in Hb; lia). subst b.
    destruct fuel as [|fuel]; [lia|]. cbn. rewrite Z.gcd_0_r. lia.
  - destruct fuel as [|[|fuel]]; try lia.
    cbn [gcdLoop].
    destruct (Z.eqb_spec b 0) as [->|Hb0].
    { rewrite Z.gcd_0_r. lia. }
    assert (Hr : Z.rem a b = a mod b) by (apply Z.rem_mod_nonneg; lia).
    pose proof (Z.mod_pos_bound a b ltac:(lia)) as Hm.
    assert (Hg : Z.gcd (a mod b) b = Z.gcd a b)
      by (rewrite Z.gcd_mod by lia; apply Z.gcd_comm).
    rewrite Hr.
    destruct (Z.eqb_spec (a mod b) 0) as [H0|H0].
    { rewrite <- Hg, H0, Z.gcd_0_l. lia. }
    destruct (rem_halves b (a mod b)) as [Hlo Hhi]; try lia.
    rewrite IH; try lia.
    + rewrite <- Hg.
      rewrite Z.rem_mod_nonneg by lia.
      rewrite (Z.gcd_comm (a mod b) (b mod (a mod b))).
      rewrite Z.gcd_mod by lia. reflexivity.
    + split; [lia|].
      rewrite Nat2Z.inj_succ, Z.pow_succ_r in Hb by lia. lia.
Qed.

(** X1: [bigintGcd] returns the greatest common divisor of its arguments,
    whatever their signs: it is not negative, divides both, every common
    divisor divides it, [bigintGcd a 0] is |a| and [bigintGcd 0 0] is 0.
    The loop has stopped on [b = 0] within its bound: more iterations give
    the same result. *)
Theorem X1_bigintGcd (a b : Z) :
  bigintGcd a b = Z.gcd a b
  /\ 0 <= bigintGcd a b
  /\ (bigintGcd a b | a) /\ (bigintGcd a b | b)
  /\ (forall d, (d | a) -> (d | b) -> (d | bigintGcd a b))
  /\ bigintGcd a 0 = Z.abs a
  /\ (forall fuel, (gcdFuel (absBigInt b) <= fuel)%nat ->
        gcdLoop fuel (absBigInt a) (absBigInt b) = bigintGcd a b).
Proof.
  rewrite !bigintGcd_gcd.
  split; [reflexivity|]. split; [apply Z.gcd_nonneg|].
  split; [apply Z.gcd_divide_l|]. split; [apply Z.gcd_divide_r|].
  split; [intros d; apply Z.gcd_greatest|]. split; [apply Z.gcd_0_r|].
  intros fuel Hfuel. rewrite !absBigInt_abs in *.
  rewrite (gcdLoop_more (S (Z.to_nat (Z.log2 (Z.abs b))))).
  - rewrite Z.gcd_abs_l, Z.gcd_abs_r. reflexivity.
  - lia.
  - split; [lia|].
    rewrite Nat2Z.inj_succ, Z2Nat.id by apply Z.log2_nonneg.
    destruct (Z.eq_dec (Z.abs b) 0) as [->|Hnz].
    + cbn. lia.
    + apply Z.log2_spec. lia.
  - unfold gcdFuel in Hfuel. lia.
Qed.

(** ** The evaluator *)

Lemma duplicate_not_NoDup (pre mid post : list point) (p q : point) :
  x p = x q -> ~ NoDup (xs (pre ++ p :: mid ++ q :: post)).
Proof.
  intros Hpq Hnd. apply NoDup_others in Hnd. apply Hnd.
  rewrite Hpq, !xs_app. cbn [xs map].
  apply in_or_app. right. apply in_or_app. right. left. reflexivity.
Qed.

Lemma computeConstantC_not_distinct (points : list point) :
  ~ NoDup (xs points) -> computeConstantC points = Err RangeError_DivisionByZero.
Proof.
  intros Hn.
  destruct (duplicate_cases points) as [H|[pre [p [mid [q [post [-> Hpq]]]]]]];
    [contradiction|].
  apply computeConstantC_duplicate. exact Hpq.
Qed.

(** X2: the evaluator fails exactly when two points share their
    x-coordinate, and then with the division-by-zero [RangeError] and no
    other exception; otherwise it returns a fraction in lowest terms with a
    positive denominator. *)
Theorem X2_evaluator_outcome (points : list point) :
  (NoDup (xs points) <-> exists r, computeConstantC points = Ok r)
  /\ (~ NoDup (xs points) <-> exists e, computeConstantC points = Err e)
  /\ (forall e, computeConstantC points = Err e -> e = RangeError_DivisionByZero)
  /\ (forall r, computeConstantC points = Ok r ->
        0 < den r /\ Z.gcd (Z.abs (num r)) (den r) = 1).
Proof.
  split; [|split; [|split]].
  - split.
    + intros Hnd.
      destruct (computeConstantC_distinct points Hnd) as [n [d [Hc _]]].
      eexists. exact Hc.
    + intros [r Hr]. exact (computeConstantC_ok_distinct points r Hr).
  - split.
    + intros Hn. eexists. apply computeConstantC_not_distinct. exact Hn.
    + intros [e He] Hnd.
      destruct (computeConstantC_distinct points Hnd) as [n [d [Hc _]]].
      rewrite Hc in He. discriminate.
  - intros e He.
    destruct (duplicate_cases points) as [Hnd|[pre [p [mid [q [post [-> Hpq]]]]]]].
    + destruct (computeConstantC_distinct points Hnd) as [n [d [Hc _]]].
      rewrite Hc in He. discriminate.
    + rewrite (computeConstantC_duplicate pre mid post p q Hpq) in He.
      injection He as <-. reflexivity.
  - intros r Hr. exact (computeConstantC_ok_reduced points r Hr).
Qed.

Lemma sumQc_perm {A : Type} (g : A -> Qc) (l l' : list A) :
  Permutation l l' -> sumQc g l = sumQc g l'.
Proof.
  induction 1 as [|a l l' _ IH|a b l|l l' l'' _ IH1 _ IH2]; cbn [sumQc].
  - reflexivity.
  - rewrite IH. reflexivity.
  - ring.
  - rewrite IH1. exact IH2.
Qed.

Lemma prodQc_perm {A : Type} (g : A -> Qc) (l l' : list A) :
  Permutation l l' -> prodQc g l = prodQc g l'.
Proof.
  induction 1 as [|a l l' _ IH|a b l|l l' l'' _ IH1 _ IH2]; cbn [prodQc].
  - reflexivity.
  - rewrite IH. reflexivity.
  - ring.
  - rewrite IH1. exact IH2.
Qed.

(** A rational has one representation in lowest terms with a positive
    denominator. *)
Lemma reduced_unique (n1 d1 n2 d2 : Z) :
  reduced n1 d1 -> reduced n2 d2 ->
  (zq n1 / zq d1)%Qc = (zq n2 / zq d2)%Qc -> n1 = n2 /\ d1 = d2.
Proof.
  intros [Hp1 Hg1] [Hp2 Hg2] Hv.
  assert (Hz1 : zq d1 <> 0%Qc) by (apply zq_nonzero; lia).
  assert (Hz2 : zq d2 <> 0%Qc) by (apply zq_nonzero; lia).
  assert (Hx : n1 * d2 = n2 * d1).
  { apply zq_inj. rewrite !zq_mul.
    transitivity ((zq n1 / zq d1) * (zq d1 * zq d2))%Qc; [field; assumption|].
    rewrite Hv. field. assumption. }
  rewrite Z.gcd_abs_l in Hg1, Hg2.
  assert (H12 : (d1 | d2)).
  { apply Z.gauss with n1.
    - exists n2. lia.
    - rewrite Z.gcd_comm. exact Hg1. }
  assert (H21 : (d2 | d1)).
  { apply Z.gauss with n2.
    - exists n1. lia.
    - rewrite Z.gcd_comm. exact Hg2. }
  assert (Hd : d1 = d2) by (apply Z.divide_antisym_nonneg; lia || assumption).
  split; [|exact Hd]. subst d2. nia.
Qed.

(** X3: the result of the evaluator does not depend on the order of the
    points: on a permutation of the array it returns the same fraction, or
    throws the same exception. *)
Theorem X3_evaluator_order (points points' : list point) :
  Permutation points points' ->
  computeConstantC points = computeConstantC points'.
Proof.
  intros Hp.
  assert (Hxs : Permutation (xs points) (xs points'))
    by (apply Permutation_map; exact Hp).
  destruct (duplicate_cases points) as [Hnd|[pre [p [mid [q [post [E Hpq]]]]]]].
  - assert (Hnd' : NoDup (xs points')) by exact (Permutation_NoDup Hxs Hnd).
    destruct (computeConstantC_distinct points Hnd)
      as [n1 [d1 [Hc1 [_ [Hr1 Hv1]]]]].
    destruct (computeConstantC_distinct points' Hnd')
      as [n2 [d2 [Hc2 [_ [Hr2 Hv2]]]]].
    rewrite Hc1, Hc2.
    assert (Hsum : sumQc (termValue points) points = sumQc (termValue points') points').
    { rewrite (sumQc_perm _ _ _ Hp). apply sumQc_ext_in.
      intros a _. unfold termValue, basis. f_equal.
      apply prodQc_perm, Permutation_map. exact Hp. }
    rewrite Hsum, <- Hv2 in Hv1.
    destruct (reduced_unique n1 d1 n2 d2 Hr1 Hr2 Hv1) as [-> ->]. reflexivity.
  - assert (Hn : ~ NoDup (xs points))
      by (rewrite E; apply duplicate_not_NoDup; exact Hpq).
    assert (Hn' : ~ NoDup (xs points')).
    { intros H. apply Hn. apply (Permutation_NoDup (Permutation_sym Hxs) H). }
    rewrite (computeConstantC_not_distinct points Hn).
    rewrite (computeConstantC_not_distinct points' Hn'). reflexivity.
Qed.

Lemma X3_evaluator_order_witness :
  Permutation [mkPoint 1 1; mkPoint 3 2; mkPoint 4 7]
              [mkPoint 4 7; mkPoint 1 1; mkPoint 3 2]
  /\ computeConstantC [mkPoint 1 1; mkPoint 3 2; mkPoint 4 7]
     = computeConstantC [mkPoint 4 7; mkPoint 1 1; mkPoint 3 2].
Proof.
  assert (Hp : Permutation [mkPoint 1 1; mkPoint 3 2; mkPoint 4 7]
                           [mkPoint 4 7; mkPoint 1 1; mkPoint 3 2]).
  { apply Permutation_sym.
    apply Permutation_trans with [mkPoint 1 1; mkPoint 4 7; mkPoint 3 2].
    - apply perm_swap.
    - apply perm_skip, perm_swap. }
  split; [exact Hp|]. apply (X3_evaluator_order _ _ Hp).
Defined.

(** X4: on points with pairwise distinct x-coordinates that lie on a
    polynomial of degree less than their number with rational coefficients,
    the evaluator returns, in lowest terms, the value of the polynomial at
    0, integer or not. *)
Theorem X4_rational_constant (points : list point) (coeffs : list Qc) :
  NoDup (xs points) ->
  (List.length coeffs <= List.length points)%nat ->
  (forall p, In p points -> zq (y p) = evalPolyQc coeffs (zx p)) ->
  exists r,
    computeConstantC points = Ok r
    /\ 0 < den r /\ Z.gcd (Z.abs (num r)) (den r) = 1
    /\ (zq (num r) / zq (den r))%Qc = evalPolyQc coeffs 0%Qc.
Proof.
  intros Hnd Hlen Hy.
  destruct (computeConstantC_distinct points Hnd)
    as [n [d [Hc [_ [[Hpos Hgcd] Hval]]]]].
  exists {| num := n; den := d |}. cbn [num den].
  split; [exact Hc|]. split; [exact Hpos|]. split; [exact Hgcd|].
  rewrite Hval.
  rewrite <- (lagrange_exact (map zx points) (NoDup_nodes points Hnd) coeffs).
  - unfold lagrange. rewrite sumQc_map. apply sumQc_ext_in.
    intros p Hp. unfold termValue. rewrite (Hy p Hp). reflexivity.
  - rewrite length_map. exact Hlen.
Qed.

Lemma X4_rational_constant_witness :
  let half := Q2Qc (1 # 2) in
  exists r,
    computeConstantC [mkPoint 1 1; mkPoint 3 2] = Ok r
    /\ 0 < den r /\ Z.gcd (Z.abs (num r)) (den r) = 1
    /\ (zq (num r) / zq (den r))%Qc = evalPolyQc [half; half] 0%Qc.
Proof.
  apply (X4_rational_constant [mkPoint 1 1; mkPoint 3 2] [Q2Qc (1 # 2); Q2Qc (1 # 2)]).
  - repeat constructor; cbn; intuition lia.
  - cbn. lia.
  - intros p [<-|[<-|[]]]; apply Qc_is_canon; reflexivity.
Defined.

(** ** The output *)

(** X5: for a fraction the evaluator has returned, the branch of the
    integer quotient (lines 140-142) is never taken: when the denominator
    is not 1 it does not divide the numerator.  The printed line is the
    numerator when the denominator is 1 and numerator/denominator
    otherwise. *)
Theorem X5_quotient_branch_dead (points : list point) (r : fraction) :
  computeConstantC points = Ok r ->
  (den r <> 1 -> Z.rem (num r) (den r) <> 0)
  /\ ((den r | num r) <-> den r = 1)
  /\ formatResult r
     = Ok (if den r =? 1 then BigInt_toString (num r)
           else (BigInt_toString (num r) ++ "/" ++ BigInt_toString (den r))%string).
Proof.
  intros Hr.
  destruct (computeConstantC_ok_reduced points r Hr) as [Hpos Hgcd].
  assert (Hdiv : (den r | num r) -> den r = 1).
  { intros Hd.
    assert (H1 : (den r | 1)).
    { rewrite <- Hgcd. apply Z.gcd_greatest; [|apply Z.divide_refl].
      apply Z.divide_abs_r. exact Hd. }
    apply Z.divide_1_r in H1. lia. }
  assert (Hrem : den r <> 1 -> Z.rem (num r) (den r) <> 0).
  { intros Hne E. apply Hne, Hdiv.
    exists (Z.quot (num r) (den r)).
    pose proof (Z.quot_rem' (num r) (den r)). lia. }
  split; [exact Hrem|]. split.
  - split; [exact Hdiv|]. intros ->. apply Z.divide_1_l.
  - unfold formatResult, bigRem.
    destruct (Z.eqb_spec (den r) 1) as [E|E]; [reflexivity|].
    destruct (Z.eqb_spec (den r) 0); [lia|]. cbn [bind].
    destruct (Z.eqb_spec (Z.rem (num r) (den r)) 0) as [E0|E0]; [|reflexivity].
    exfalso. exact (Hrem E E0).
Qed.

Lemma X5_quotient_branch_dead_witness :
  computeConstantC [mkPoint 1 1; mkPoint 3 2] = Ok {| num := 1; den := 2 |}
  /\ formatResult {| num := 1; den := 2 |} = Ok "1/2".
Proof.
  assert (H : computeConstantC [mkPoint 1 1; mkPoint 3 2] = Ok {| num := 1; den := 2 |})
    by reflexivity.
  split; [exact H|].
  apply (proj2 (proj2 (X5_quotient_branch_dead _ _ H))).
Defined.

(** X6: when the selected points have pairwise distinct x-coordinates and
    lie on a polynomial with integer coefficients of degree less than their
    number, the script prints the constant term of the polynomial, in
    decimal. *)
Theorem X6_prints_constant_term {FT : FloatText} (data : list (string * jsval))
    (points : list point) (coeffs : list Z) :
  selectPoints data = Ok points ->
  NoDup (xs points) ->
  (List.length coeffs <= List.length points)%nat ->
  (forall p, In p points -> y p = evalPoly coeffs (x p)) ->
  solve data = Ok (BigInt_toString (evalPoly coeffs 0)).
Proof.
  intros Hsel Hnd Hlen Hy.
  rewrite (solve_points data points Hsel).
  rewrite (computeConstantC_exact points coeffs Hnd Hlen Hy). reflexivity.
Qed.

Lemma X6_prints_constant_term_witness :
  (forall FT : FloatText, selectPoints docLinearA = Ok [mkPoint 1 5; mkPoint 2 9])
  /\ NoDup (xs [mkPoint 1 5; mkPoint 2 9])
  /\ (forall FT : FloatText, solve docLinearA = Ok (BigInt_toString (evalPoly [1; 4] 0))).
Proof.
  assert (Hnd : NoDup (xs [mkPoint 1 5; mkPoint 2 9]))
    by (repeat constructor; cbn; intuition lia).
  split; [intros FT; reflexivity|]. split; [exact Hnd|].
  intros FT.
  apply (X6_prints_constant_term docLinearA [mkPoint 1 5; mkPoint 2 9] [1; 4]).
  - reflexivity.
  - exact Hnd.
  - cbn. lia.
  - intros p [<-|[<-|[]]]; reflexivity.
Defined.

(** ** The decoder *)

Lemma parse_string_int {FT : FloatText} (s : string) (r : Z) :
  s <> "" ->
  parseBigIntFromBase (JStr s) (JNum (Fin (inject_Z r)))
  = digitsLoop r (stripLeadingZeros (toLowerCase (trim s))) 0.
Proof.
  intros Hs. unfold parseBigIntFromBase.
  cbn [ToBoolean ToNumber ToString bind].
  apply String.eqb_neq in Hs. rewrite Hs. cbn [negb].
  rewrite NumberToBigInt_integer. reflexivity.
Qed.

Lemma digitsLoop_nonneg (base : Z) (s : string) :
  forall value v, 0 <= value -> digitsLoop base s value = Ok v -> 0 <= v.
Proof.
  induction s as [|ch s IH]; intros value v Hv; cbn [digitsLoop].
  - intros E. injection E as <-. exact Hv.
  - rewrite digitOf_spec. destruct (isDigitChar ch) eqn:Hd; cbn [bind]; [|discriminate].
    pose proof (digitValue_range ch Hd).
    destruct (Z.geb_spec (digitValue ch) base); [discriminate|].
    apply IH. nia.
Qed.

(** X7: the decoder never returns a negative number, whatever its two
    arguments are. *)
Theorem X7_decoder_nonnegative {FT : FloatText} (str baseNum : jsval) (v : Z) :
  parseBigIntFromBase str baseNum = Ok v -> 0 <= v.
Proof.
  unfold parseBigIntFromBase.
  destruct (ToBoolean str); cbn [negb]; [|intros E; injection E as <-; lia].
  destruct (ToNumber baseNum) as [n|]; cbn [bind]; [|discriminate].
  destruct (NumberToBigInt n) as [b|]; cbn [bind]; [|discriminate].
  destruct (ToString str) as [s|]; cbn [bind]; [|discriminate].
  apply digitsLoop_nonneg. lia.
Qed.

Lemma X7_decoder_nonnegative_witness :
  (forall FT : FloatText,
     parseBigIntFromBase (JStr "ff") (JNum (Fin (inject_Z 16))) = Ok 255)
  /\ 0 <= 255.
Proof.
  split; [intros FT; reflexivity|].
  exact (X7_decoder_nonnegative
           (FT := {| StringToNumber := fun _ => NaN; NumberToString := fun _ => "" |})
           (JStr "ff") (JNum (Fin (inject_Z 16))) 255 eq_refl).
Defined.

(** X8: blank input decodes to 0.  A value that is false as a condition
    (undefined, null, false, 0, NaN, the empty string) gives 0 before the
    base is looked at, so whatever the base is; a string of white space
    only gives 0 for every integer base, zero and negative ones
    included. *)
Theorem X8_blank_input {FT : FloatText} :
  (forall str baseNum : jsval,
     ToBoolean str = false -> parseBigIntFromBase str baseNum = Ok 0)
  /\ (forall (s : string) (r : Z),
        trim s = "" ->
        parseBigIntFromBase (JStr s) (JNum (Fin (inject_Z r))) = Ok 0).
Proof.
  split.
  - intros str baseNum Hf. unfold parseBigIntFromBase. rewrite Hf. reflexivity.
  - intros s r Ht. destruct (string_dec s "") as [->|Hs]; [reflexivity|].
    rewrite parse_string_int by exact Hs. rewrite Ht. reflexivity.
Qed.

Lemma X8_blank_input_witness :
  ToBoolean JNull = false /\ trim "   " = ""
  /\ (forall FT : FloatText,
        parseBigIntFromBase JNull (JStr "no base") = Ok 0
        /\ parseBigIntFromBase (JStr "   ") (JNum (Fin (inject_Z (-3)))) = Ok 0).
Proof.
  split; [reflexivity|]. split; [reflexivity|].
  intros FT. split.
  - apply (proj1 X8_blank_input). reflexivity.
  - apply (proj2 X8_blank_input). reflexivity.
Defined.

Lemma mapString_nonempty (f : ascii -> ascii) (s : string) :
  s <> "" -> mapString f s <> "".
Proof. destruct s; [congruence | discriminate]. Qed.

Lemma stripLeadingZeros_nonempty (s : string) :
  s <> "" -> stripLeadingZeros s <> "".
Proof.
  induction s as [|ch s IH]; [congruence|]. intros _. cbn [stripLeadingZeros].
  destruct s as [|ch' s']; [discriminate|].
  destruct (Ascii.eqb ch "0"); [apply IH|]; discriminate.
Qed.

(** X9: the base is converted before any digit is read and is not checked
    otherwise.  With a number that is no integer (NaN, an infinity, a
    fraction) every non-empty string fails with the [RangeError] of the
    conversion, valid digits or not; with an integer base below 1 every
    string that is not blank fails with an invalid-digit error. *)
Theorem X9_bad_base {FT : FloatText} :
  (forall (s : string) (n : number),
     s <> "" -> (forall b, NumberToBigInt n <> Ok b) ->
     parseBigIntFromBase (JStr s) (JNum n) = Err RangeError_NotAnInteger)
  /\ (forall (s : string) (r : Z),
        trim s <> "" -> r <= 0 ->
        exists e, parseBigIntFromBase (JStr s) (JNum (Fin (inject_Z r))) = Err e
                  /\ isInvalidDigit e = true).
Proof.
  split.
  - intros s n Hs Hn. unfold parseBigIntFromBase. cbn [ToBoolean ToNumber bind].
    apply String.eqb_neq in Hs. rewrite Hs. cbn [negb].
    destruct (NumberToBigInt n) as [b|e] eqn:E; [elim (Hn b); reflexivity|].
    cbn [bind]. f_equal.
    destruct n as [| | |q]; cbn in E; try (injection E as <-; reflexivity).
    destruct (_ =? 0); [discriminate | injection E as <-; reflexivity].
  - intros s r Ht Hr.
    assert (Hs : s <> "") by (intros ->; apply Ht; reflexivity).
    rewrite parse_string_int by exact Hs.
    pose proof (stripLeadingZeros_nonempty _ (mapString_nonempty lowerChar _ Ht)) as Hne.
    fold (toLowerCase (trim s)) in Hne.
    destruct (stripLeadingZeros (toLowerCase (trim s))) as [|ch t]; [congruence|].
    cbn [digitsLoop]. rewrite digitOf_spec.
    destruct (isDigitChar ch) eqn:Hd; cbn [bind].
    + pose proof (digitValue_range ch Hd).
      destruct (Z.geb_spec (digitValue ch) r); [|lia].
      eexists. split; reflexivity.
    + eexists. split; reflexivity.
Qed.

Lemma X9_bad_base_witness :
  "101" <> "" /\ (forall b, NumberToBigInt (Fin (5 # 2)) <> Ok b)
  /\ trim " 0 " <> "" /\ 0 <= 0
  /\ (forall FT : FloatText,
        parseBigIntFromBase (JStr "101") (JNum (Fin (5 # 2)))
        = Err RangeError_NotAnInteger
        /\ exists e, parseBigIntFromBase (JStr " 0 ") (JNum (Fin (inject_Z 0))) = Err e
                     /\ isInvalidDigit e = true).
Proof.
  split; [discriminate|]. split; [discriminate|].
  split; [discriminate|]. split; [lia|].
  intros FT. split.
  - apply (proj1 X9_bad_base); discriminate.
  - apply (proj2 X9_bad_base); [discriminate | lia].
Defined.

Lemma lowerChar_code (ch : ascii) :
  (charCode (lowerChar ch) = charCode ch + 32
   /\ (65 <= charCode ch <= 90
       \/ (192 <= charCode ch <= 222 /\ charCode ch <> 215)))
  \/ (charCode (lowerChar ch) = charCode ch
      /\ ~ (65 <= charCode ch <= 90
            \/ (192 <= charCode ch <= 222 /\ charCode ch <> 215))).
Proof.
  unfold lowerChar. pose proof (charCode_range ch) as Hr.
  destruct (Z.leb_spec 65 (charCode ch)), (Z.leb_spec (charCode ch) 90),
    (Z.leb_spec 192 (charCode ch)), (Z.leb_spec (charCode ch) 222),
    (Z.eqb_spec (charCode ch) 215);
    cbn [andb orb negb];
    try (right; split; [reflexivity | lia]);
    left; (split; [apply charCode_of; lia | lia]).
Qed.

Ltac char_ranges :=
  repeat match goal with
         | |- context [Z.leb ?a ?b] => destruct (Z.leb_spec a b)
         | |- context [Z.eqb ?a ?b] => destruct (Z.eqb_spec a b)
         end;
  cbn [andb orb negb]; try reflexivity; try lia.

Lemma lowerChar_white (ch : ascii) : isWhiteSpace (lowerChar ch) = isWhiteSpace ch.
Proof.
  unfold isWhiteSpace.
  destruct (lowerChar_code ch) as [[E H]|[E H]]; rewrite E; [|reflexivity].
  char_ranges.
Qed.

Lemma lowerChar_idem (ch : ascii) : lowerChar (lowerChar ch) = lowerChar ch.
Proof.
  apply charCode_inj.
  destruct (lowerChar_code (lowerChar ch)) as [[E' H']|[E' H']]; [|exact E'].
  exfalso. destruct (lowerChar_code ch) as [[E H]|[E H]]; rewrite E in H'; lia.
Qed.

Lemma trimStart_map (s : string) :
  trimStart (mapString lowerChar s) = mapString lowerChar (trimStart s).
Proof.
  induction s as [|ch s IH]; [reflexivity|]. cbn [mapString trimStart].
  rewrite lowerChar_white. destruct (isWhiteSpace ch); [exact IH | reflexivity].
Qed.

Lemma trimEnd_map (s : string) :
  trimEnd (mapString lowerChar s) = mapString lowerChar (trimEnd s).
Proof.
  induction s as [|ch s IH]; [reflexivity|]. cbn [mapString trimEnd].
  rewrite IH, lowerChar_white.
  destruct (trimEnd s); cbn [mapString]; [destruct (isWhiteSpace ch)|]; reflexivity.
Qed.

Lemma trimEnd_idem (s : string) : trimEnd (trimEnd s) = trimEnd s.
Proof.
  induction s as [|ch s IH]; [reflexivity|]. cbn [trimEnd].
  destruct (trimEnd s) as [|c t] eqn:E.
  - destruct (isWhiteSpace ch) eqn:W; [reflexivity|].
    cbn [trimEnd]. rewrite W. reflexivity.
  - cbn [trimEnd] in *. rewrite IH. reflexivity.
Qed.

Lemma trimEnd_cons (ch : ascii) (s : string) :
  isWhiteSpace ch = false -> trimEnd (String ch s) = String ch (trimEnd s).
Proof.
  intros W. cbn [trimEnd]. destruct (trimEnd s); [rewrite W|]; reflexivity.
Qed.

Lemma trimStart_cases (s : string) :
  trimStart s = ""
  \/ exists ch t, trimStart s = String ch t /\ isWhiteSpace ch = false.
Proof.
  induction s as [|ch s IH]; [left; reflexivity|]. cbn [trimStart].
  destruct (isWhiteSpace ch) eqn:W; [exact IH|].
  right. exists ch, s. split; [reflexivity | exact W].
Qed.

Lemma trim_idem (s : string) : trim (trim s) = trim s.
Proof.
  unfold trim. destruct (trimStart_cases s) as [->|[ch [t [-> W]]]]; [reflexivity|].
  rewrite trimEnd_cons by exact W. cbn [trimStart]. rewrite W.
  rewrite trimEnd_cons by exact W. rewrite trimEnd_idem. reflexivity.
Qed.

Lemma normal_idem (s : string) :
  toLowerCase (trim (toLowerCase (trim s))) = toLowerCase (trim s).
Proof.
  unfold toLowerCase, trim at 1.
  rewrite trimStart_map, trimEnd_map. fold (trim (trim s)). rewrite trim_idem.
  induction (trim s) as [|ch t IH]; [reflexivity|].
  cbn [mapString]. rewrite lowerChar_idem, IH. reflexivity.
Qed.

(** X10: the decoder ignores the case of the letters, white space around
    the digits and leading zeros: a string that is not blank decodes like
    its trimmed, lower-case form, and one more zero in front of a string
    that starts with a character other than white space changes nothing.
    This holds for every base, valid or not. *)
Theorem X10_normal_form {FT : FloatText} :
  (forall (s : string) (baseNum : jsval),
     trim s <> "" ->
     parseBigIntFromBase (JStr s) baseNum
     = parseBigIntFromBase (JStr (toLowerCase (trim s))) baseNum)
  /\ (forall (ch : ascii) (s : string) (baseNum : jsval),
        isWhiteSpace ch = false ->
        parseBigIntFromBase (JStr (String "0" (String ch s))) baseNum
        = parseBigIntFromBase (JStr (String ch s)) baseNum).
Proof.
  split.
  - intros s baseNum Ht.
    assert (Hs : s <> "") by (intros ->; apply Ht; reflexivity).
    pose proof (mapString_nonempty lowerChar _ Ht) as Hl.
    fold (toLowerCase (trim s)) in Hl.
    unfold parseBigIntFromBase. cbn [ToBoolean ToString].
    apply String.eqb_neq in Hs. apply String.eqb_neq in Hl. rewrite Hs, Hl.
    cbn [negb].
    destruct (ToNumber baseNum) as [n|]; cbn [bind]; [|reflexivity].
    destruct (NumberToBigInt n) as [b|]; cbn [bind]; [|reflexivity].
    rewrite normal_idem. reflexivity.
  - intros ch s baseNum W.
    unfold parseBigIntFromBase. cbn [ToBoolean ToString String.eqb negb].
    destruct (ToNumber baseNum) as [n|]; cbn [bind]; [|reflexivity].
    destruct (NumberToBigInt n) as [b|]; cbn [bind]; [|reflexivity].
    unfold trim. cbn [trimStart]. rewrite W.
    change (isWhiteSpace "0") with false. cbv iota.
    rewrite (trimEnd_cons "0") by reflexivity.
    rewrite trimEnd_cons by exact W.
    unfold toLowerCase. cbn [mapString stripLeadingZeros].
    change (lowerChar "0") with "0"%char. reflexivity.
Qed.

Lemma X10_normal_form_witness :
  trim "  0Ff " <> "" /\ isWhiteSpace "f" = false
  /\ (forall FT : FloatText,
        parseBigIntFromBase (JStr "  0Ff ") (JNum (Fin (inject_Z 16)))
        = parseBigIntFromBase (JStr "0ff") (JNum (Fin (inject_Z 16)))
        /\ parseBigIntFromBase (JStr "0ff") (JNum (Fin (inject_Z 16)))
           = parseBigIntFromBase (JStr "ff") (JNum (Fin (inject_Z 16)))).
Proof.
  split; [discriminate|]. split; [reflexivity|].
  intros FT. split.
  - apply (proj1 X10_normal_form "  0Ff "). discriminate.
  - apply (proj2 X10_normal_form "f"%char "f"). reflexivity.
Defined.

Lemma digits_normal (s : string) :
  (forall ch, contains ch s -> isDigitChar ch = true) ->
  toLowerCase (trim s) = s.
Proof.
  intros Hd. unfold trim, toLowerCase.
  rewrite trimStart_id, trimEnd_id, mapString_id;
    try reflexivity; intros ch Hc; apply (isDigitChar_plain ch (Hd ch Hc)).
Qed.

(** The decoder on a string whose trimmed, lower-case form has digits of the
    base only. *)
Lemma parse_value {FT : FloatText} (s : string) (r : Z) :
  (forall ch, contains ch (toLowerCase (trim s)) ->
     isDigitChar ch = true /\ digitValue ch < r) ->
  parseBigIntFromBase (JStr s) (JNum (Fin (inject_Z r)))
  = Ok (positional r (toLowerCase (trim s)) 0).
Proof.
  intros Hd. destruct (string_dec s "") as [->|Hs]; [reflexivity|].
  rewrite parse_string_int by exact Hs.
  destruct (toLowerCase (trim s)) as [|ch t] eqn:E; [reflexivity|].
  assert (Hr : 0 < r).
  { destruct (Hd ch (or_introl eq_refl)) as [H1 H2].
    pose proof (digitValue_range ch H1). lia. }
  rewrite stripLeadingZeros_digitsLoop by exact Hr.
  apply digitsLoop_positional. exact Hd.
Qed.

Lemma positional_bound (r : Z) (s : string) :
  (forall ch, contains ch s -> isDigitChar ch = true /\ digitValue ch < r) ->
  forall v, 0 <= v ->
  0 <= positional r s v < (v + 1) * r ^ Z.of_nat (String.length s).
Proof.
  unfold contains.
  induction s as [|ch s IH]; intros Hd v Hv; cbn [positional String.length].
  - change (r ^ Z.of_nat 0) with 1. lia.
  - destruct (Hd ch (or_introl eq_refl)) as [H1 H2].
    pose proof (digitValue_range ch H1) as Hrange.
    assert (Hd' : forall c, In c (list_ascii_of_string s) ->
                  isDigitChar c = true /\ digitValue c < r)
      by (intros c Hc; apply Hd; right; exact Hc).
    specialize (IH Hd' (v * r + digitValue ch) ltac:(nia)).
    rewrite Nat2Z.inj_succ, Z.pow_succ_r by lia.
    assert (0 <= r ^ Z.of_nat (String.length s)) by (apply Z.pow_nonneg; lia).
    nia.
Qed.

(** X11: when the trimmed, lower-case form of the string has only digits
    of the base, the decoder returns its positional value, most
    significant digit first; with n characters the value is below the n-th
    power of the base. *)
Theorem X11_decoded_value {FT : FloatText} (s : string) (r : Z) :
  (forall ch, contains ch (toLowerCase (trim s)) ->
     isDigitChar ch = true /\ digitValue ch < r) ->
  parseBigIntFromBase (JStr s) (JNum (Fin (inject_Z r)))
  = Ok (positional r (toLowerCase (trim s)) 0)
  /\ 0 <= positional r (toLowerCase (trim s)) 0
       < r ^ Z.of_nat (String.length (toLowerCase (trim s))).
Proof.
  intros Hd. split; [apply parse_value; exact Hd|].
  pose proof (positional_bound r _ Hd 0 ltac:(lia)) as H. lia.
Qed.

Lemma X11_decoded_value_witness :
  (forall ch, contains ch (toLowerCase (trim " 1A ")) ->
     isDigitChar ch = true /\ digitValue ch < 11)
  /\ (forall FT : FloatText,
        parseBigIntFromBase (JStr " 1A ") (JNum (Fin (inject_Z 11))) = Ok 21).
Proof.
  assert (Hd : forall ch, contains ch (toLowerCase (trim " 1A ")) ->
               isDigitChar ch = true /\ digitValue ch < 11).
  { intros ch [<-|[<-|[]]]; split; reflexivity. }
  split; [exact Hd|].
  intros FT. apply (proj1 (X11_decoded_value " 1A " 11 Hd)).
Defined.

Lemma positional_app (r : Z) (s1 s2 : string) :
  forall v, positional r (s1 ++ s2) v = positional r s2 (positional r s1 v).
Proof.
  induction s1 as [|ch s1 IH]; intros v; [reflexivity|].
  cbn [String.append positional]. apply IH.
Qed.

Lemma positional_shift (r : Z) (s : string) :
  forall v, positional r s v
            = v * r ^ Z.of_nat (String.length s) + positional r s 0.
Proof.
  induction s as [|ch s IH]; intros v; cbn [positional String.length].
  - change (r ^ Z.of_nat 0) with 1. lia.
  - rewrite (IH (v * r + digitValue ch)), (IH (0 * r + digitValue ch)).
    rewrite Nat2Z.inj_succ, Z.pow_succ_r by lia. ring.
Qed.

Lemma contains_app (ch : ascii) (s1 s2 : string) :
  contains ch (s1 ++ s2) -> contains ch s1 \/ contains ch s2.
Proof.
  unfold contains. induction s1 as [|c s1 IH]; cbn; [tauto|].
  intros [H|H]; [left; left; exact H|].
  destruct (IH H); [left; right|right]; assumption.
Qed.

(** X12: decoding composes over concatenation: for two strings of digits of
    the base, the value of their concatenation is the value of the first,
    shifted by as many digits as the second has, plus the value of the
    second. *)
Theorem X12_decode_concatenation {FT : FloatText} (s1 s2 : string) (r : Z) :
  (forall ch, contains ch s1 -> isDigitChar ch = true /\ digitValue ch < r) ->
  (forall ch, contains ch s2 -> isDigitChar ch = true /\ digitValue ch < r) ->
  exists v1 v2,
    parseBigIntFromBase (JStr s1) (JNum (Fin (inject_Z r))) = Ok v1
    /\ parseBigIntFromBase (JStr s2) (JNum (Fin (inject_Z r))) = Ok v2
    /\ parseBigIntFromBase (JStr (s1 ++ s2)) (JNum (Fin (inject_Z r)))
       = Ok (v1 * r ^ Z.of_nat (String.length s2) + v2).
Proof.
  intros H1 H2.
  assert (H12 : forall ch, contains ch (s1 ++ s2) ->
                isDigitChar ch = true /\ digitValue ch < r).
  { intros ch Hc. destruct (contains_app ch s1 s2 Hc); [apply H1 | apply H2]; assumption. }
  assert (N1 : toLowerCase (trim s1) = s1)
    by (apply digits_normal; intros ch Hc; apply (H1 ch Hc)).
  assert (N2 : toLowerCase (trim s2) = s2)
    by (apply digits_normal; intros ch Hc; apply (H2 ch Hc)).
  assert (N12 : toLowerCase (trim (s1 ++ s2)) = (s1 ++ s2)%string)
    by (apply digits_normal; intros ch Hc; apply (H12 ch Hc)).
  exists (positional r s1 0), (positional r s2 0).
  split; [|split].
  - rewrite parse_value; rewrite N1; [reflexivity | exact H1].
  - rewrite parse_value; rewrite N2; [reflexivity | exact H2].
  - rewrite parse_value; rewrite N12; [|exact H12].
    rewrite positional_app, positional_shift. reflexivity.
Qed.

Lemma X12_decode_concatenation_witness :
  (forall ch, contains ch "12" -> isDigitChar ch = true /\ digitValue ch < 10)
  /\ (forall ch, contains ch "034" -> isDigitChar ch = true /\ digitValue ch < 10)
  /\ (forall FT : FloatText,
        exists v1 v2,
          parseBigIntFromBase (JStr "12") (JNum (Fin (inject_Z 10))) = Ok v1
          /\ parseBigIntFromBase (JStr "034") (JNum (Fin (inject_Z 10))) = Ok v2
          /\ parseBigIntFromBase (JStr "12034") (JNum (Fin (inject_Z 10)))
             = Ok (v1 * 10 ^ 3 + v2)).
Proof.
  assert (H1 : forall ch, contains ch "12" -> isDigitChar ch = true /\ digitValue ch < 10)
    by (intros ch [<-|[<-|[]]]; split; reflexivity).
  assert (H2 : forall ch, contains ch "034" -> isDigitChar ch = true /\ digitValue ch < 10)
    by (intros ch [<-|[<-|[<-|[]]]]; split; reflexivity).
  split; [exact H1|]. split; [exact H2|].
  intros FT. exact (X12_decode_concatenation "12" "034" 10 H1 H2).
Defined.

(** ** The selection *)

Lemma sortEntries_length (es : list entry) :
  List.length (sortEntries es) = List.length es.
Proof. apply Permutation_length, sortEntries_perm_self. Qed.

(** X13: how many entries are selected, for an integer k and n collected
    entries.  With k > n the script fails with the not-enough-points error,
    before any value is decoded; with 0 <= k <= n it takes the first k of
    the sorted entries; a negative k is not rejected: the script takes all
    but the last |k| sorted entries (none when |k| >= n). *)
Theorem X13_selection_count {FT : FloatText} (data : list (string * jsval))
    (k : Z) (es : list entry) :
  readK data = Ok (Fin (inject_Z k)) ->
  collectEntries data = Ok es ->
  (Z.of_nat (List.length es) < k ->
     selectEntries data = Err (NotEnoughPoints (List.length es) (Fin (inject_Z k)))
     /\ solve data = Err (NotEnoughPoints (List.length es) (Fin (inject_Z k))))
  /\ (0 <= k <= Z.of_nat (List.length es) ->
        selectEntries data = Ok (firstn (Z.to_nat k) (sortEntries es))
        /\ List.length (firstn (Z.to_nat k) (sortEntries es)) = Z.to_nat k)
  /\ (k < 0 ->
        selectEntries data
        = Ok (firstn (Z.to_nat (Z.of_nat (List.length es) + k)) (sortEntries es))).
Proof.
  intros Hk Hes.
  assert (Hsel : selectEntries data
                 = if Z.of_nat (List.length es) <? k
                   then Err (NotEnoughPoints (List.length es) (Fin (inject_Z k)))
                   else Ok (firstn (sliceEnd (List.length es) (Fin (inject_Z k)))
                              (sortEntries es))).
  { unfold selectEntries. rewrite Hk, Hes. cbn [bind].
    rewrite sortEntries_length. unfold lengthLt. cbn [inject_Z Qnum Qden].
    rewrite Z.mul_1_r. reflexivity. }
  assert (Hslice : sliceEnd (List.length es) (Fin (inject_Z k))
                   = if k <? 0 then Z.to_nat (Z.max (Z.of_nat (List.length es) + k) 0)
                     else Z.to_nat (Z.min k (Z.of_nat (List.length es)))).
  { unfold sliceEnd. cbn [inject_Z Qnum Qden]. rewrite Z.quot_1_r. reflexivity. }
  rewrite Hsel, Hslice.
  split; [|split].
  - intros Hlt. destruct (Z.ltb_spec (Z.of_nat (List.length es)) k); [|lia].
    split; [reflexivity|].
    unfold solve, selectPoints. rewrite Hsel.
    destruct (Z.ltb_spec (Z.of_nat (List.length es)) k); [reflexivity | lia].
  - intros Hle. destruct (Z.ltb_spec (Z.of_nat (List.length es)) k); [lia|].
    destruct (Z.ltb_spec k 0); [lia|]. rewrite Z.min_l by lia.
    split; [reflexivity|].
    apply firstn_length_le. rewrite sortEntries_length. lia.
  - intros Hneg. destruct (Z.ltb_spec (Z.of_nat (List.length es)) k); [lia|].
    destruct (Z.ltb_spec k 0); [|lia].
    f_equal. f_equal. lia.
Qed.

Lemma X13_selection_count_witness :
  (forall FT : FloatText, readK docKnown = Ok (Fin (inject_Z 3)))
  /\ (forall FT : FloatText,
        exists sel, selectEntries docKnown = Ok sel /\ List.length sel = 3%nat).
Proof.
  split; [intros FT; reflexivity|].
  intros FT.
  pose proof (X13_selection_count docKnown 3 _ eq_refl eq_refl) as [_ [H _]].
  destruct (H ltac:(cbn; lia)) as [Hs Hl].
  eexists. split; [exact Hs | exact Hl].
Defined.

Lemma xLe_trans : Relations_1.Transitive xLe.
Proof. unfold xLe. intros a b c Hab Hbc. lia. Qed.

Lemma StronglySorted_app (l1 l2 : list entry) :
  StronglySorted xLe (l1 ++ l2) ->
  StronglySorted xLe l1
  /\ forall a b, In a l1 -> In b l2 -> xLe a b.
Proof.
  induction l1 as [|h l1 IH]; cbn [app]; intros Hs.
  - split; [constructor | intros a b []].
  - inversion Hs as [|? ? Hs' Hall]; subst.
    destruct (IH Hs') as [IH1 IH2]. split.
    + constructor; [exact IH1|].
      apply Forall_forall. intros c Hc.
      rewrite Forall_forall in Hall. apply Hall. apply in_or_app. left. exact Hc.
    + intros a b [<-|Ha] Hb.
      * rewrite Forall_forall in Hall. apply Hall. apply in_or_app. right. exact Hb.
      * exact (IH2 a b Ha Hb).
Qed.

(** X14: the selected entries are the smallest ones: they are in
    ascending order of x, together with the entries left out they are the
    collected entries, and no entry left out has a smaller x than a
    selected one. *)
Theorem X14_selects_smallest {FT : FloatText} (data : list (string * jsval))
    (sel : list entry) :
  selectEntries data = Ok sel ->
  exists es rest,
    collectEntries data = Ok es
    /\ Permutation (sel ++ rest) es
    /\ Sorted xLe sel
    /\ (forall e e', In e sel -> In e' rest -> xBig e <= xBig e').
Proof.
  unfold selectEntries.
  destruct (readK data) as [k|]; cbn [bind]; [|discriminate].
  destruct (collectEntries data) as [es|]; cbn [bind]; [|discriminate].
  destruct (lengthLt _ k); [discriminate|].
  intros E. injection E as <-.
  set (m := sliceEnd (List.length (sortEntries es)) k).
  exists es, (skipn m (sortEntries es)).
  split; [reflexivity|]. split.
  - rewrite firstn_skipn. apply sortEntries_perm_self.
  - pose proof (Sorted_StronglySorted xLe_trans (sortEntries_sorted es)) as Hs.
    rewrite <- (firstn_skipn m (sortEntries es)) in Hs.
    destruct (StronglySorted_app _ _ Hs) as [H1 H2].
    split; [apply StronglySorted_Sorted; exact H1 | exact H2].
Qed.

Lemma X14_selects_smallest_witness :
  (forall FT : FloatText,
     selectEntries docOrderA
     = Ok [ {| keyStr := "01"; xBig := 1; base := JNum (Fin (inject_Z 10)); val := JStr "5" |} ])
  /\ (forall FT : FloatText,
        exists es rest,
          collectEntries docOrderA = Ok es
          /\ Permutation
               ([ {| keyStr := "01"; xBig := 1; base := JNum (Fin (inject_Z 10));
                     val := JStr "5" |} ] ++ rest) es).
Proof.
  split; [intros FT; reflexivity|].
  intros FT.
  destruct (X14_selects_smallest docOrderA _ eq_refl) as [es [rest [H1 [H2 _]]]].
  exists es, rest. split; [exact H1 | exact H2].
Defined.

(** X15: every key of the document other than "keys" is converted, selected
    or not: one key that is no integer literal, or one entry that is null,
    makes the script fail without a result, whatever k is. *)
Theorem X15_every_entry_converted {FT : FloatText} (data : list (string * jsval))
    (k : number) (key : string) :
  readK data = Ok k ->
  In key (map fst data) -> key <> "keys" ->
  (forall z, StringToBigInt key <> Ok z) \/ getOwn key data = JNull ->
  exists e, collectEntries data = Err e /\ solve data = Err e
            /\ printed (solve data) = None.
Proof.
  intros Hk Hin Hne Hbad.
  assert (Hentry : exists e, entryOf data key = Err e).
  { unfold entryOf.
    destruct (StringToBigInt key) as [z|e] eqn:E; cbn [bind]; [|eexists; reflexivity].
    destruct Hbad as [Hbad|Hnull]; [elim (Hbad z); reflexivity|].
    rewrite Hnull. eexists. reflexivity. }
  destruct Hentry as [e0 He0].
  assert (Hkeys : In key (filter (fun key => negb (String.eqb key "keys")) (map fst data))).
  { apply filter_In. split; [exact Hin|].
    apply String.eqb_neq in Hne. rewrite Hne. reflexivity. }
  destruct (mapM_In_error (entryOf data) _ key e0 Hkeys He0) as [e He].
  exists e. fold (collectEntries data) in He.
  assert (Hs : solve data = Err e).
  { unfold solve, selectPoints, selectEntries. rewrite Hk, He. reflexivity. }
  rewrite Hs. split; [exact He|]. split; reflexivity.
Qed.

Lemma X15_every_entry_converted_witness :
  let doc := [("1", entryObj 10 "5"); ("keys", keysObj 0); ("1.5", entryObj 10 "7")] in
  (forall FT : FloatText, readK doc = Ok (Fin (inject_Z 0)))
  /\ (forall z, StringToBigInt "1.5" <> Ok z)
  /\ (forall FT : FloatText, exists e, solve doc = Err e).
Proof.
  cbv zeta.
  assert (Hbad : forall z, StringToBigInt "1.5" <> Ok z) by discriminate.
  split; [intros FT; reflexivity|]. split; [exact Hbad|].
  intros FT.
  assert (Hin : In "1.5" (map fst [("1", entryObj 10 "5"); ("keys", keysObj 0);
                                   ("1.5", entryObj 10 "7")]))
    by (right; right; left; reflexivity).
  assert (Hne : "1.5" <> "keys") by discriminate.
  destruct (X15_every_entry_converted
              [("1", entryObj 10 "5"); ("keys", keysObj 0); ("1.5", entryObj 10 "7")]
              (Fin (inject_Z 0)) "1.5" eq_refl Hin Hne (or_introl Hbad))
    as [e [_ [He _]]].
  exists e. exact He.
Defined.
